(** * Storj core: audit proof engine and storage adapters

    A shallow embedding of [lib/audit/proof.js] and of the storage adapters
    exercised by [test/storage/adapters/*.unit.js], with the properties the
    specification states about them. *)

From Stdlib Require Import ZArith List String Ascii Lia Bool.
From Stdlib.Strings Require Import Byte.
From stdpp Require Import gmap strings list fin_maps.
Import ListNotations.

Local Open Scope string_scope.

(* ===================================================================== *)
(** ** JavaScript values and string primitives *)
(* ===================================================================== *)

Module JS.

(** JavaScript values: the primitives, and arrays of them.  [undefined] is
    what an array read out of range yields.  Objects other than arrays are
    not among these values, and an array has an element at each of its
    indices (no holes). *)
Inductive value : Type :=
| VUndef
| VNull
| VBool (b : bool)
| VNum (n : Z)
| VStr (s : string)
| VArr (elems : list value).

(** Errors thrown by the code under study. *)
Inductive error : Type :=
| AssertionError (message : string)
| TypeError
| NotFoundError (message : string)
| EngineError (message : string).

(** Outcome of a call: normal return or a thrown error. *)
Inductive completion (A : Type) : Type :=
| Return (v : A)
| Throw (e : error).
Arguments Return {A} v.
Arguments Throw {A} e.

(** A call on an object whose state is [S]: it may throw, and it leaves
    the object in a state. *)
Definition action (S A : Type) : Type := S -> completion A * S.

Definition ret {S A} (v : A) : action S A := fun s => (Return v, s).

Definition bind {S A B} (m : action S A) (k : A -> action S B) : action S B :=
  fun s => match m s with
           | (Return v, s') => k v s'
           | (Throw e, s') => (Throw e, s')
           end.

Definition throw {S A} (e : error) : action S A := fun s => (Throw e, s).

Definition code (c : ascii) : N := N_of_ascii c.

(** [String.prototype.toUpperCase] / [toLowerCase].  They are exact on
    strings of ASCII characters, which hexadecimal digests are; a character
    outside the ASCII range is left as it is here, whereas JavaScript maps
    every cased letter. *)
Definition upper_ascii (c : ascii) : ascii :=
  if ((97 <=? code c) && (code c <=? 122))%N
  then ascii_of_N (code c - 32) else c.

Definition lower_ascii (c : ascii) : ascii :=
  if ((65 <=? code c) && (code c <=? 90))%N
  then ascii_of_N (code c + 32) else c.

Fixpoint toUpperCase (s : string) : string :=
  match s with
  | EmptyString => EmptyString
  | String c r => String (upper_ascii c) (toUpperCase r)
  end.

Fixpoint toLowerCase (s : string) : string :=
  match s with
  | EmptyString => EmptyString
  | String c r => String (lower_ascii c) (toLowerCase r)
  end.

(** One lower-case hexadecimal digit for a nibble. *)
Definition hexdigit (n : Z) : ascii :=
  let d := (n mod 16)%Z in
  if (d <? 10)%Z then ascii_of_N (Z.to_N (48 + d)) else ascii_of_N (Z.to_N (87 + d)).

(** A Buffer is a sequence of bytes. *)
Abbreviation Buffer := (list byte).

Definition byte_val (b : byte) : Z := Z.of_N (Byte.to_N b).

(** [buf.toString('hex')] *)
Fixpoint toString_hex (buf : Buffer) : string :=
  match buf with
  | [] => EmptyString
  | b :: r =>
      String (hexdigit (Z.shiftr (byte_val b) 4))
        (String (hexdigit (byte_val b)) (toString_hex r))
  end.

(** The value of a hexadecimal digit, as a reader of [toString('hex')]
    output takes it. *)
Definition hexval (c : ascii) : Z :=
  let n := Z.of_N (code c) in
  if (n <? 58)%Z then (n - 48)%Z else (n - 87)%Z.

(** [arr.indexOf(x)]: first position of [x]; [None] stands for [-1]. *)
Fixpoint indexOf (arr : list string) (x : string) : option nat :=
  match arr with
  | [] => None
  | y :: r => if String.eqb y x then Some 0%nat else option_map S (indexOf r x)
  end.

(** [arr[k]] read as a value: [undefined] when out of range. *)
Definition elem (arr : list string) (k : nat) : value :=
  match arr !! k with
  | Some s => VStr s
  | None => VUndef
  end.

Definition is_array (v : value) : Prop := exists elems, v = VArr elems.

(** Characters matched by the class [[0-9a-f]]. *)
Definition is_hex_lower (c : ascii) : bool :=
  ((48 <=? code c) && (code c <=? 57) || (97 <=? code c) && (code c <=? 102))%N.

Fixpoint all_chars (p : ascii -> bool) (s : string) : bool :=
  match s with
  | EmptyString => true
  | String c r => p c && all_chars p r
  end.

(** Strings of ASCII characters. *)
Definition is_ascii (s : string) : bool := all_chars (fun c => (code c <? 128)%N) s.

(** Cut a list into consecutive pieces of [n] elements (the last one may
    be shorter); [fuel] bounds the number of pieces. *)
Fixpoint pieces {A} (fuel n : nat) (l : list A) : list (list A) :=
  match fuel, l with
  | _, [] => []
  | O, _ => []
  | S fuel', _ => take n l :: pieces fuel' n (drop n l)
  end.

End JS.

Notation "x <~ m ;; k" := (JS.bind m (fun x => k))
  (at level 100, m at next level, right associativity).

(* ===================================================================== *)
(** ** SHA-256 (FIPS 180-4), as [crypto.createHash('sha256')] computes it *)
(* ===================================================================== *)

Module SHA256.
Local Open Scope Z_scope.

Definition wrap32 (x : Z) : Z := x mod 2 ^ 32.
Definition add32 (x y : Z) : Z := wrap32 (x + y).
Definition rotr (n x : Z) : Z :=
  Z.lor (Z.shiftr x n) (wrap32 (Z.shiftl x (32 - n))).
Definition not32 (x : Z) : Z := Z.lxor x 0xffffffff.

Definition Ch (x y z : Z) : Z := Z.lxor (Z.land x y) (Z.land (not32 x) z).
Definition Maj (x y z : Z) : Z :=
  Z.lxor (Z.lxor (Z.land x y) (Z.land x z)) (Z.land y z).
Definition Sum0 (x : Z) : Z := Z.lxor (Z.lxor (rotr 2 x) (rotr 13 x)) (rotr 22 x).
Definition Sum1 (x : Z) : Z := Z.lxor (Z.lxor (rotr 6 x) (rotr 11 x)) (rotr 25 x).
Definition sig0 (x : Z) : Z := Z.lxor (Z.lxor (rotr 7 x) (rotr 18 x)) (Z.shiftr x 3).
Definition sig1 (x : Z) : Z := Z.lxor (Z.lxor (rotr 17 x) (rotr 19 x)) (Z.shiftr x 10).

(** The first primes, by trial division. *)
Definition is_prime (n : Z) : bool :=
  forallb (fun d => negb (n mod d =? 0)) (map Z.of_nat (seq 2 (Z.to_nat n - 2))).

Definition primes (count : nat) : list Z :=
  firstn count (filter is_prime (map Z.of_nat (seq 2 310))).

(** Integer cube root, one bit at a time from bit [bits - 1] down. *)
Fixpoint icbrt (bits : nat) (r n : Z) : Z :=
  match bits with
  | O => r
  | S bits' =>
      let r' := r + 2 ^ Z.of_nat bits' in
      icbrt bits' (if r' * r' * r' <=? n then r' else r) n
  end.

(** The round constants: the first thirty-two bits of the fractional parts
    of the cube roots of the first sixty-four primes. *)
Definition K : list Z :=
  Eval vm_compute in map (fun p => wrap32 (icbrt 36 0 (p * 2 ^ 96))) (primes 64).

(** The eight working words. *)
Record regs : Type := Regs {
  ra : Z; rb : Z; rc : Z; rd : Z; re : Z; rf : Z; rg : Z; rh : Z }.

(** The initial hash value: the first thirty-two bits of the fractional
    parts of the square roots of the first eight primes. *)
Definition frac_sqrt (p : Z) : Z := wrap32 (Z.sqrt (p * 2 ^ 64)).

Definition H0 : regs :=
  Eval vm_compute in
    match map frac_sqrt (primes 8) with
    | [a; b; c; d; e; f; g; h] => Regs a b c d e f g h
    | _ => Regs 0 0 0 0 0 0 0 0
    end.

(** Message padding: 0x80, zeros up to 56 mod 64, then the bit length on
    eight big-endian bytes. *)
Definition be_bytes (n : nat) (x : Z) : list Z :=
  map (fun i => Z.shiftr x (8 * Z.of_nat i) mod 256) (rev (seq 0 n)).

Definition pad (msg : list Z) : list Z :=
  let len := Z.of_nat (length msg) in
  msg ++ [0x80] ++ repeat 0 (Z.to_nat ((55 - len) mod 64)) ++ be_bytes 8 (8 * len).

Definition be_word (bs : list Z) : Z :=
  fold_left (fun acc b => acc * 256 + b) bs 0.

(** Message schedule: sixteen words of the block, extended to sixty-four. *)
Fixpoint extend (k : nat) (ws : list Z) : list Z :=
  match k with
  | O => ws
  | S k' =>
      let t := length ws in
      let w j := nth (t - j) ws 0 in
      extend k' (ws ++ [add32 (add32 (sig1 (w 2%nat)) (w 7%nat))
                              (add32 (sig0 (w 15%nat)) (w 16%nat))])
  end.

Definition schedule (block : list Z) : list Z :=
  extend 48 (map be_word (JS.pieces 16 4 block)).

Definition round (r : regs) (kw : Z * Z) : regs :=
  let t1 := add32 (add32 (add32 (rh r) (Sum1 (re r)))
                         (add32 (Ch (re r) (rf r) (rg r)) (fst kw))) (snd kw) in
  let t2 := add32 (Sum0 (ra r)) (Maj (ra r) (rb r) (rc r)) in
  Regs (add32 t1 t2) (ra r) (rb r) (rc r) (add32 (rd r) t1) (re r) (rf r) (rg r).

Definition compress (h : regs) (block : list Z) : regs :=
  let r := fold_left round (combine K (schedule block)) h in
  Regs (add32 (ra h) (ra r)) (add32 (rb h) (rb r))
       (add32 (rc h) (rc r)) (add32 (rd h) (rd r))
       (add32 (re h) (re r)) (add32 (rf h) (rf r))
       (add32 (rg h) (rg r)) (add32 (rh h) (rh r)).

Definition digest (msg : list Z) : regs :=
  let padded := pad msg in
  fold_left compress (JS.pieces (length padded) 64 padded) H0.

(** [.digest('hex')]: eight hexadecimal digits per word, lower case. *)
Definition word_hex (w : Z) (rest : string) : string :=
  String (JS.hexdigit (Z.shiftr w 28)) (String (JS.hexdigit (Z.shiftr w 24))
  (String (JS.hexdigit (Z.shiftr w 20)) (String (JS.hexdigit (Z.shiftr w 16))
  (String (JS.hexdigit (Z.shiftr w 12)) (String (JS.hexdigit (Z.shiftr w 8))
  (String (JS.hexdigit (Z.shiftr w 4)) (String (JS.hexdigit w) rest))))))).

Definition regs_hex (r : regs) : string :=
  word_hex (ra r) (word_hex (rb r) (word_hex (rc r) (word_hex (rd r)
  (word_hex (re r) (word_hex (rf r) (word_hex (rg r) (word_hex (rh r) ""))))))).

Definition bytes_of_string (s : string) : list Z :=
  map (fun c => Z.of_N (JS.code c)) (list_ascii_of_string s).

End SHA256.

(** Modelled from the spec: [utils.sha256] of [lib/utils.js], which is not
    among the sources.  It is the digest of the proof protocol, by its name
    SHA-256, of a string, in hexadecimal and in lower case ([prove]
    upper-cases it before it searches the tree). *)
Definition sha256 (input : string) : string :=
  SHA256.regs_hex (SHA256.digest (SHA256.bytes_of_string input)).

(* ===================================================================== *)
(** ** The tree object of the [merkle] package *)
(* ===================================================================== *)

(** [proof.js] obtains its tree from [merkle('sha256').sync(...)] of the npm
    package [merkle], a dependency outside the repository, and uses its
    [levels()] and [level(i)].  The package keeps every hash in upper case:
    this is why [prove] looks for [hash.toUpperCase()] among the leaves, and
    why it lower-cases a level before it reads a sibling from it.  A fed
    string that already has the shape of a digest becomes a leaf without
    being hashed again, which is how the leaves handed to [Proof] are found
    again by [prove].  The last node of a level of odd length is carried up
    unchanged.  Row 0 is the root, the last row the leaves. *)
Module Merkle.
Import JS.

Record tree : Type := Tree {
  leaves : list string;
  treeDepth : nat;
  rows : list (list string);
  nodesCount : nat }.

Definition method (A : Type) : Type := action tree A.

(** /^[0-9a-f]{64}$/ *)
Definition hashResultRegexp (data : string) : bool :=
  (String.length data =? 64)%nat && all_chars is_hex_lower data.

(** [feed]: the leaf pushed for one piece of data. *)
Definition feed (data : string) : string :=
  if hashResultRegexp data then toUpperCase data
  else toUpperCase (sha256 data).

(** A stored hash survives the lower-casing [prove] applies to a level
    and the upper-casing the tree applies to what it digests. *)
Definition stable (s : string) : Prop := toUpperCase (toLowerCase s) = s.

(** A node of the tree reads, in lower case, as a digest. *)
Definition digest_node (s : string) : Prop := hashResultRegexp (toLowerCase s) = true.

(** The digest of two adjacent nodes. *)
Definition hashPair (l r : string) : string := toUpperCase (sha256 (l ++ r)).

(** [getNodes]: the level above a level. *)
Fixpoint getNodes (level : list string) : list string :=
  match level with
  | l :: r :: rest => hashPair l r :: getNodes rest
  | [last] => [last]
  | [] => []
  end.

(** The [while] loop of [depth]: the first [pow] with [2^pow >= n]. *)
Fixpoint depth_loop (fuel pow n : nat) : nat :=
  match fuel with
  | O => pow
  | S fuel' => if (2 ^ pow <? n)%nat then depth_loop fuel' (S pow) n else pow
  end.

Definition computeDepth (n : nat) : nat := depth_loop n 0 n.

(** [depth()]: computed when the cached [treeDepth] is falsy, and cached. *)
Definition depth : method nat := fun t =>
  if (treeDepth t =? 0)%nat then
    let pow := computeDepth (length (leaves t)) in
    (Return pow, Tree (leaves t) pow (rows t) (nodesCount t))
  else (Return (treeDepth t), t).

(** [levels()] *)
Definition levels : method nat :=
  d <~ depth ;; ret (d + 1)%nat.

(** [level(i)]: [rows[i]], which is [undefined] past the last row. *)
Definition level (i : nat) : method (option (list string)) := fun t =>
  (Return (rows t !! i), t).

(** [root()]: [rows[0][0]]. *)
Definition root (t : tree) : option string :=
  match rows t !! 0%nat with
  | Some top => top !! 0%nat
  | None => None
  end.

(** The rows from a level up to the root, deepest first. *)
Fixpoint rows_above (d : nat) (level : list string) : list (list string) :=
  match d with
  | O => [level]
  | S d' => level :: rows_above d' (getNodes level)
  end.

(** [merkle('sha256').sync(data)]: feed every element, then [compute]. *)
Definition sync (data : list string) : tree :=
  let lv := map feed data in
  let d := computeDepth (length lv) in
  let rs := reverse (rows_above d lv) in
  Tree lv d rs (list_sum (map (@length string) (take d rs))).

End Merkle.

(* ===================================================================== *)
(** ** [lib/audit/proof.js] *)
(* ===================================================================== *)

Module ProofJS.
Import JS.

(** A [Proof] instance. *)
Record Proof : Type := MkProof { _tree : Merkle.tree }.

Definition method (A : Type) : Type := action Proof A.

(** [Array.isArray] *)
Definition isArray (v : value) : bool :=
  match v with VArr _ => true | _ => false end.

(** [leaves.map(leaf => leaf.toLowerCase())]: a [TypeError] at the first
    element that is not a string. *)
Fixpoint lower_all (elems : list value) : completion (list string) :=
  match elems with
  | [] => Return []
  | VStr s :: r =>
      match lower_all r with
      | Return l => Return (toLowerCase s :: l)
      | Throw e => Throw e
      end
  | _ :: _ => Throw TypeError
  end.

(** The values on which [leaf.toLowerCase()] throws: [undefined] and [null]
    have no properties, and a boolean, a number or an array has no such
    method. *)
Definition lacks_toLowerCase (v : value) : bool :=
  match v with
  | VUndef | VNull | VBool _ | VNum _ | VArr _ => true
  | VStr _ => false
  end.

(** [new Proof(leaves)] (and [Proof(leaves)], which forwards to it). *)
Definition new_Proof (leaves : value) : completion Proof :=
  match leaves with
  | VArr elems =>
      match lower_all elems with
      | Return l => Return (MkProof (Merkle.sync l))
      | Throw e => Throw e
      end
  | _ => Throw (AssertionError "Merkle leaves must be an array")
  end.

(** The instance built from an array of strings. *)
Definition Proof_of (leaves : list string) : Proof :=
  MkProof (Merkle.sync (map toLowerCase leaves)).

(** A call [this._tree.m(...)]. *)
Definition on_tree {A} (m : Merkle.method A) : method A :=
  fun p => let (r, t') := m (_tree p) in (r, MkProof t').

(** Property access on a value that may be [undefined]. *)
Definition deref {A} (o : option A) : method A :=
  match o with
  | Some v => ret v
  | None => throw TypeError
  end.

(** The [for] loop of [prove], entered with the counter at [i]. *)
Fixpoint prove_loop (i index : nat) (branches : value) : method value :=
  match i with
  | O => ret branches
  | S i' =>
      raw <~ on_tree (Merkle.level i) ;;
      raw <~ deref raw ;;
      let level := map toLowerCase raw in
      let branches :=
        if (index mod 2 =? 0)%nat
        then VArr [branches; elem level (index + 1)]
        else VArr [elem level (index - 1); branches] in
      prove_loop i' (index / 2) branches
  end.

(** [Proof.prototype.prove] *)
Definition prove (challenge : string) (shard : Buffer) : method value :=
  let input := challenge ++ toString_hex shard in
  let resp := sha256 input in
  let hash := sha256 resp in
  n <~ on_tree Merkle.levels ;;
  leaves <~ on_tree (Merkle.level (n - 1)) ;;
  leaves <~ deref leaves ;;
  let index := indexOf leaves (toUpperCase hash) in
  let branches := VArr [VStr resp] in
  match index with
  | None => ret (VArr [])
  | Some index =>
      n <~ on_tree Merkle.levels ;;
      prove_loop (n - 1) index branches
  end.

(** The response and the leaf an audit derives from a challenge and a
    shard. *)
Definition response (challenge : string) (shard : Buffer) : string :=
  sha256 (challenge ++ toString_hex shard).

Definition leaf_of (challenge : string) (shard : Buffer) : string :=
  sha256 (response challenge shard).

(** The deepest level of an instance's tree. *)
Definition bottom (p : Proof) : list string :=
  default [] (last (Merkle.rows (_tree p))).

(** **** The walk as the specification words it

    From the deepest level to level 1: an even index takes the element at
    [index + 1] as sibling and puts the running branch first, an odd index
    takes the element at [index - 1] and puts the running branch second;
    then the index is halved. *)
Definition walk_step (st : value * nat) (level : list string) : value * nat :=
  let (branch, index) := st in
  (if Nat.even index
   then VArr [branch; elem level (S index)]
   else VArr [elem level (Nat.pred index); branch],
   Nat.div2 index).

Definition walk (levels : list (list string)) (branch : value) (index : nat) : value :=
  fst (fold_left walk_step levels (branch, index)).

(** The levels a walk visits, deepest first, down to level 1, as [prove]
    reads them (lower-cased). *)
Definition levels_to_1 (p : Proof) : list (list string) :=
  map (map toLowerCase) (reverse (drop 1 (Merkle.rows (_tree p)))).

(** Whether a value holds [undefined] somewhere. *)
Fixpoint has_undef (v : value) : bool :=
  match v with
  | VUndef => true
  | VArr elems => existsb has_undef elems
  | _ => false
  end.

End ProofJS.

(* ===================================================================== *)
(** ** Verifying a branch *)
(* ===================================================================== *)

Module Verifier.
Import JS.

Section Collapse.
(** How a verifier normalises the case of a hash before it concatenates
    and after it digests. *)
Variable norm : string -> string.

(** Modelled from the spec: the verifier of a branch, which is not among
    the sources ("recompute pairwise digests along the returned nested
    structure and compare to the stored root").  The innermost
    one-element array holds the response, whose digest is the leaf; a
    two-element array is digested from its two halves, a half being a
    sibling hash or a nested array digested first.  An [undefined] half
    is concatenated as JavaScript concatenates it. *)
Fixpoint collapse (v : value) : option string :=
  match v with
  | VArr [VStr resp] => Some (norm (sha256 resp))
  | VArr [l; r] =>
      let half h :=
        match h with
        | VStr s => Some (norm s)
        | VUndef => Some (norm "undefined")
        | VArr _ => collapse h
        | _ => None
        end in
      match half l, half r with
      | Some hl, Some hr => Some (norm (sha256 (hl ++ hr)))
      | _, _ => None
      end
  | _ => None
  end.
End Collapse.

(** Pairwise digesting as the claim words it: SHA-256 of each pair. *)
Definition pairwise_digest : value -> option string := collapse (fun s => s).

(** Pairwise digesting as the tree digests its own nodes: SHA-256 over the
    upper-cased halves, in upper case. *)
Definition pairwise_digest_upper : value -> option string := collapse toUpperCase.

(** Reading a branch back.  A branch nests one array per level around
    [[resp]]; at each level the nested array sits first when the index was
    even there and second when it was odd.  [locate] gives the index these
    sides spell in binary (the innermost level is the lowest bit), the
    number of levels, and the response. *)
Fixpoint locate (v : value) : option (nat * nat * string) :=
  match v with
  | VArr [VStr resp] => Some (0, 0, resp)%nat
  | VArr [l; r] =>
      match l, r with
      | VArr _, VArr _ => None
      | VArr _, _ =>
          match locate l with
          | Some (i, d, resp) => Some (i, S d, resp)
          | None => None
          end
      | _, VArr _ =>
          match locate r with
          | Some (i, d, resp) => Some (i + 2 ^ d, S d, resp)%nat
          | None => None
          end
      | _, _ => None
      end
  | _ => None
  end.

(** The strings a value holds, left to right. *)
Fixpoint strings_of (v : value) : list string :=
  match v with
  | VStr s => [s]
  | VArr elems => flat_map strings_of elems
  | _ => []
  end.

End Verifier.

(* ===================================================================== *)
(** ** Storage items and adapters *)
(* ===================================================================== *)

Module Storage.
Import JS.

(** Modelled from the spec: the bookkeeping of a [StorageItem]
    ([lib/storage/item.js] is not among the sources): its hash and four maps
    keyed by counterpart id; contracts and audit records are opaque
    serialised values here. *)
Record metadata : Type := Metadata {
  hash : string;
  contracts : gmap string string;
  challenges : gmap string string;
  trees : gmap string string;
  meta : gmap string string }.

(** Modelled from the spec: the shard of an item handed back by an adapter,
    a readable stream over bytes or a writable stream for a key. *)
Inductive stream : Type :=
| Readable (content : Buffer)
| Writable (key : string).

(** [rs.read()] until the end of a readable stream. *)
Definition read_all (s : stream) : option Buffer :=
  match s with
  | Readable content => Some content
  | Writable _ => None
  end.

Definition is_writable (s : stream) : bool :=
  match s with Writable _ => true | Readable _ => false end.

Definition is_readable (s : stream) : bool :=
  match s with Readable _ => true | Writable _ => false end.

End Storage.

Module RAMStorageAdapter.
Import JS Storage.

(** Modelled from the spec: the in-memory adapter "backs both namespaces
    with simple in-process maps" (the unit test fills [_items] and
    [_shards]). *)
Record store : Type := Store {
  _items : gmap string metadata;
  _shards : gmap string Buffer }.

Definition empty : store := Store ∅ ∅.

(** Modelled from the spec: [RAMStorageAdapter.prototype._get] of
    [lib/storage/adapters/ram.js], of which only the unit test is among
    the sources.  No item record: failure "Shard data not found"; an item
    record without shard bytes: the item with a writable stream; an item
    record with shard bytes: the item with a readable stream that replays
    them. *)
Definition _get (key : string) : action store (metadata * stream) := fun s =>
  match _items s !! key with
  | None => (Throw (NotFoundError "Shard data not found"), s)
  | Some item =>
      match _shards s !! key with
      | Some bytes => (Return (item, Readable bytes), s)
      | None => (Return (item, Writable key), s)
      end
  end.

(** Modelled from the spec: writing to the stream handed out for an item
    without shard bytes populates the shard in place. *)
Definition write (st : stream) (data : Buffer) : action store bool := fun s =>
  match st with
  | Writable key =>
      (Return true,
       Store (_items s) (<[key := (default [] (_shards s !! key) ++ data)%list]> (_shards s)))
  | Readable _ => (Throw TypeError, s)
  end.

End RAMStorageAdapter.

Module LevelDB.
Import JS Storage.

(** Modelled from the spec: the ordered key-value engine behind the
    durable adapter, one instance holding two namespaces: the metadata
    entries, and the chunk records of the blob sub-store keyed by
    [(fileId, chunkIndex)]. *)
Record engine : Type := Engine {
  entries : gmap string metadata;
  chunks : gmap (string * nat) Buffer }.

(** The engine operations that fail, and the error each fails with: the
    unit tests make [db.put], [db.get], [db.del] and [fs.reset] fail this
    way. *)
Record faults : Type := Faults {
  put_fails : option error;
  get_fails : option error;
  del_fails : option error;
  write_fails : option error;
  reset_fails : option error }.

Definition no_faults : faults := Faults None None None None None.

Definition op (A : Type) : Type := action engine A.

(** An engine operation: it fails with the injected error and changes
    nothing, or it runs. *)
Definition guarded {A} (fault : option error) (run : op A) : op A :=
  match fault with
  | Some e => throw e
  | None => run
  end.

(** Modelled from the spec: writing an entry of the metadata namespace. *)
Definition db_put (f : faults) (key : string) (v : metadata) : op unit :=
  guarded (put_fails f)
    (fun eng => (Return tt, Engine (<[key := v]> (entries eng)) (chunks eng))).

(** Modelled from the spec: reading an entry of the metadata namespace;
    the engine has its own error for a key it does not hold. *)
Definition db_get (f : faults) (key : string) : op metadata :=
  guarded (get_fails f)
    (fun eng => match entries eng !! key with
                | Some v => (Return v, eng)
                | None => (Throw (NotFoundError "Key not found in database"), eng)
                end).

(** Modelled from the spec: removing an entry of the metadata namespace. *)
Definition db_del (f : faults) (key : string) : op unit :=
  guarded (del_fails f)
    (fun eng => (Return tt, Engine (delete key (entries eng)) (chunks eng))).

End LevelDB.

Module LevelDBFileStore.
Import JS Storage LevelDB.

(** Text as JavaScript holds it: a sequence of UTF-16 code units. *)
Abbreviation text := (list Z).

(** An encoding, as the platform's [Buffer] implements it: [to_text] is
    [buf.toString(enc)], [of_text] is [Buffer.from(str, enc)].  The five
    encodings of the blob sub-store are five of these; the two whose
    behaviour is written out below are ['binary'] and ['utf16le']. *)
Record codec : Type := Codec {
  to_text : Buffer -> text;
  of_text : text -> Buffer }.

Definition byte_of (z : Z) : byte := default x00 (Byte.of_N (Z.to_N z)).

(** ['binary']: one code unit per byte; of a code unit, its low byte. *)
Definition binary : codec :=
  Codec (map byte_val) (map (fun u => byte_of (u mod 256))).



(** Chunk records [(fileId, i), (fileId, i+1), ...] for the pieces. *)
Fixpoint put_chunks (fileId : string) (i : nat) (pcs : list Buffer)
    (m : gmap (string * nat) Buffer) : gmap (string * nat) Buffer :=
  match pcs with
  | [] => m
  | c :: r => put_chunks fileId (S i) r (<[(fileId, i) := c]> m)
  end.

(** Modelled from the spec: the bytes of a payload become chunk records of
    the file, from index 0 on ("writing appends sequential chunk records
    until the stream is closed"); [chunkSize] is the fixed size of a chunk
    record. *)
Definition write_bytes (chunkSize : nat) (f : faults) (fileId : string)
    (data : Buffer) : op unit :=
  guarded (write_fails f)
    (fun eng =>
       (Return tt,
        Engine (entries eng)
               (put_chunks fileId 0 (pieces (length data) chunkSize data) (chunks eng)))).

(** Replay the records of a file from index [i] on, up to the first
    index without a record. *)
Fixpoint replay (fuel : nat) (fileId : string) (i : nat)
    (m : gmap (string * nat) Buffer) : Buffer :=
  match fuel with
  | O => []
  | S fuel' =>
      match m !! (fileId, i) with
      | Some c => (c ++ replay fuel' fileId (S i) m)%list
      | None => []
      end
  end.

(** Modelled from the spec: the bytes of a file ("reading replays chunk
    records in index order, concatenating").  A map of [n] records has no
    run of more than [n] of them, which bounds the replay. *)
Definition read_bytes (fileId : string) (eng : engine) : Buffer :=
  replay (S (size (chunks eng))) fileId 0 (chunks eng).


(** Modelled from the spec: the read stream of the blob sub-store, read to
    its end: the bytes of the file, "re-encoded to the caller's requested
    encoding". *)
Definition read_stream (enc : codec) (fileId : string) (eng : engine) : text :=
  to_text enc (read_bytes fileId eng).

(** Modelled from the spec: [reset] removes every chunk record that
    shares the file id. *)
Definition reset (f : faults) (fileId : string) : op unit :=
  guarded (reset_fails f)
    (fun eng =>
       (Return tt,
        Engine (entries eng)
               (filter (fun kv => fst (fst kv) <> fileId) (chunks eng)))).

End LevelDBFileStore.

Module LevelDBStorageAdapter.
Import JS Storage LevelDB LevelDBFileStore.

(** Modelled from the spec: an item as [put] receives it, its bookkeeping
    and, possibly, its shard. *)
Record item : Type := Item {
  record : metadata;
  shard : option Buffer }.

Section OverEngine.
(** The adapter holds an engine and reaches it through its operations only:
    the write and the read of a metadata entry, the write of a blob and the
    stream over a blob.  [S] is the state of the engine, whatever it keeps. *)
Context {S : Type}.
Variable put : string -> metadata -> action S unit.
Variable get : string -> action S metadata.
Variable write : string -> Buffer -> action S unit.
Variable read : string -> S -> stream.

(** Modelled from the spec: [_put] persists the metadata in the
    metadata namespace and, if the item carries a shard, the payload in
    the blob sub-store under the same key; an engine error is handed to
    the caller as it is. *)
Definition put_on (key : string) (it : item) : action S unit :=
  _ <~ put key (record it) ;;
  match shard it with
  | Some data => write key data
  | None => ret tt
  end.

(** Modelled from the spec: [_get] reads the metadata entry and hands
    the shard back as a stream over the blob sub-store. *)
Definition get_on (key : string) : action S (metadata * stream) :=
  v <~ get key ;;
  fun s => (Return (v, read key s), s).
End OverEngine.

(** The stream over the bytes of a blob. *)
Definition shard_stream (key : string) (eng : engine) : stream :=
  Readable (read_bytes key eng).

(** Modelled from the spec: [_put] and [_get] of the adapter, on the
    key-value engine. *)
Definition _put (chunkSize : nat) (f : faults) (key : string) (it : item) : op unit :=
  put_on (db_put f) (write_bytes chunkSize f) key it.

(** Modelled from the spec: see [_put]. *)
Definition _get (f : faults) (key : string) : op (metadata * stream) :=
  get_on (db_get f) shard_stream key.

(** Modelled from the spec: [_keys] enumerates the keys of the metadata
    namespace, in the order of the engine. *)
Definition _keys : op (list string) := fun eng =>
  (Return (map fst (map_to_list (entries eng))), eng).

(** Modelled from the spec: [_del] removes the metadata entry, then
    resets the blob; a failed removal ends the operation before the
    reset. *)
Definition _del (f : faults) (key : string) : op unit :=
  _ <~ db_del f key ;;
  reset f key.

End LevelDBStorageAdapter.

Module FlakyEngine.
Import JS Storage LevelDB LevelDBFileStore.

(** The key-value engine with faults that come and go, and a count of the
    calls made to it: each call runs under the faults at the head of a
    script and consumes them, so that a call made again after a failure need
    not fail again. *)
Record state : Type := State {
  db : engine;
  script : list faults;
  calls : nat }.

Definition call {A} (run : faults -> op A) : action state A := fun st =>
  let (r, eng') := run (hd no_faults (script st)) (db st) in
  (r, State eng' (tl (script st)) (S (calls st))).

Definition put (key : string) (v : metadata) : action state unit :=
  call (fun f => db_put f key v).

Definition get (key : string) : action state metadata :=
  call (fun f => db_get f key).

Definition write (chunkSize : nat) (key : string) (data : Buffer) : action state unit :=
  call (fun f => write_bytes chunkSize f key data).

Definition read (key : string) (st : state) : stream :=
  Readable (read_bytes key (db st)).

(** A [put] that makes the metadata write once more when it failed: what
    the adapter is stated not to do. *)
Definition put_again {S : Type} (put : string -> metadata -> action S unit)
    (key : string) (v : metadata) : action S unit := fun s =>
  match put key v s with
  | (Throw _, s') => put key v s'
  | done => done
  end.

End FlakyEngine.

(* ===================================================================== *)
(** ** Statements and test data *)
(* ===================================================================== *)

Import JS ProofJS Storage LevelDB LevelDBFileStore.

(** The claim "digesting the branch reconstructs the root", for a way of
    digesting. *)
Definition reconstructs_root (digest : value -> option string)
    (ls : list string) (challenge : string) (shard : Buffer) : Prop :=
  exists branch root,
    fst (prove challenge shard (Proof_of ls)) = Return branch /\
    branch <> VArr [] /\
    Merkle.root (_tree (Proof_of ls)) = Some root /\
    digest branch = Some root.

(** The shard of the unit tests: the bytes of "test". *)
Definition shard_test : Buffer := [x74; x65; x73; x74]%byte.

Definition leaves_of (challenges : list string) : list string :=
  map (fun c => leaf_of c shard_test) challenges.

(** The key, the item and the shard of the adapters' unit tests. *)
Definition key_test : string := "c527900223f9d08e0776d695f13a95cd6ac0e471".

Definition item_test : metadata := Metadata key_test ∅ ∅ ∅ ∅.

(** "hello ram store" *)
Definition hello : Buffer :=
  [x68; x65; x6c; x6c; x6f; x20; x72; x61; x6d; x20; x73; x74; x6f; x72; x65]%byte.

Definition failed (message : string) : option error := Some (EngineError message).

(** The scripted failures of the unit tests, and one of a blob write. *)
Definition put_failing : faults := Faults (failed "Failed") None None None None.

Definition get_failing : faults := Faults None (failed "Not found") None None None.

Definition write_failing : faults := Faults None None None (failed "Write failed") None.

(** An engine that holds one item and its shard in a single chunk. *)
Definition engine_test : engine :=
  Engine {[key_test := item_test]} {[(key_test, 0) := hello]}.


(* ===================================================================== *)
(** ** SHA-256 test vectors *)
(* ===================================================================== *)

Example sha256_empty :
  sha256 "" = "e3b0c44298fc1c149afbf4c8996fb92427ae41e4649b934ca495991b7852b855".
Proof. vm_compute. reflexivity. Qed.

Example sha256_abc :
  sha256 "abc" = "ba7816bf8f01cfea414140de5dae2223b00361a396177a9cb410ff61f20015ad".
Proof. vm_compute. reflexivity. Qed.

Example sha256_two_blocks :
  sha256 "abcdbcdecdefdefgefghfghighijhijkijkljklmklmnlmnomnopnopq"
  = "248d6a61d20638b8e5c026930c3e6039a33ce45964ff2167f6ecedd419db06c1".
Proof. vm_compute. reflexivity. Qed.

(* ===================================================================== *)
(** ** Properties of the string primitives *)
(* ===================================================================== *)

Section StringFacts.
Import JS.

Lemma upper_lower_upper_ascii (c : ascii) :
  upper_ascii (lower_ascii (upper_ascii c)) = upper_ascii c.
Proof. destruct c as [[] [] [] [] [] [] [] []]; reflexivity. Qed.

Lemma lower_hex_ascii (c : ascii) : is_hex_lower c = true -> lower_ascii c = c.
Proof. destruct c as [[] [] [] [] [] [] [] []]; intros H; try reflexivity; discriminate H. Qed.

Lemma upper_lower_upper (s : string) :
  toUpperCase (toLowerCase (toUpperCase s)) = toUpperCase s.
Proof.
  induction s as [|c s IH]; simpl; [reflexivity|].
  rewrite upper_lower_upper_ascii, IH. reflexivity.
Qed.

Lemma lower_hex (s : string) : all_chars is_hex_lower s = true -> toLowerCase s = s.
Proof.
  induction s as [|c s IH]; simpl; [reflexivity|].
  intros [Hc Hs]%andb_prop. rewrite (lower_hex_ascii c Hc), (IH Hs). reflexivity.
Qed.

Lemma hexdigit_is_hex (n : Z) : is_hex_lower (hexdigit n) = true.
Proof.
  unfold hexdigit.
  assert (H : (0 <= n mod 16 < 16)%Z) by (apply Z.mod_pos_bound; lia).
  assert (Hd : In (n mod 16)%Z [0;1;2;3;4;5;6;7;8;9;10;11;12;13;14;15]%Z)
    by (simpl; lia).
  simpl in Hd.
  repeat (destruct Hd as [<-|Hd]; [reflexivity|]). destruct Hd.
Qed.

Lemma all_chars_word_hex (w : Z) (rest : string) :
  all_chars is_hex_lower rest = true ->
  all_chars is_hex_lower (SHA256.word_hex w rest) = true.
Proof.
  intros H. unfold SHA256.word_hex. cbn [all_chars].
  rewrite !hexdigit_is_hex, H. reflexivity.
Qed.

Lemma length_word_hex (w : Z) (rest : string) :
  String.length (SHA256.word_hex w rest) = (8 + String.length rest)%nat.
Proof. unfold SHA256.word_hex. cbn [String.length]. reflexivity. Qed.

(** A SHA-256 digest in hexadecimal has the shape the tree recognises as
    a hash. *)
Lemma sha256_shape (input : string) :
  String.length (sha256 input) = 64%nat /\
  all_chars is_hex_lower (sha256 input) = true.
Proof.
  unfold sha256, SHA256.regs_hex. split.
  - rewrite !length_word_hex. reflexivity.
  - repeat apply all_chars_word_hex. reflexivity.
Qed.

Lemma sha256_is_hash (input : string) : Merkle.hashResultRegexp (sha256 input) = true.
Proof.
  unfold Merkle.hashResultRegexp.
  destruct (sha256_shape input) as [-> ->]. reflexivity.
Qed.

Lemma sha256_lower (input : string) : toLowerCase (sha256 input) = sha256 input.
Proof. apply lower_hex, sha256_shape. Qed.

Lemma indexOf_Some (arr : list string) (x : string) (i : nat) :
  indexOf arr x = Some i -> arr !! i = Some x.
Proof.
  revert i. induction arr as [|y r IH]; simpl; intros i H; [discriminate|].
  destruct (String.eqb_spec y x) as [->|Hne].
  - injection H as <-. reflexivity.
  - destruct (indexOf r x) as [j|]; simpl in H; [|discriminate].
    injection H as <-. simpl. apply IH. reflexivity.
Qed.

Lemma indexOf_None (arr : list string) (x : string) :
  indexOf arr x = None <-> x ∉ arr.
Proof.
  induction arr as [|y r IH]; simpl.
  - split; [intros _; apply not_elem_of_nil | reflexivity].
  - rewrite not_elem_of_cons. destruct (String.eqb_spec y x) as [->|Hne].
    + split; [discriminate | intros [H _]; congruence].
    + destruct (indexOf r x) as [j|]; simpl.
      * split; [discriminate|]. intros [_ H]. apply IH in H. discriminate.
      * split; [|reflexivity]. intros _. split; [congruence|]. apply IH. reflexivity.
Qed.

Lemma indexOf_elem (arr : list string) (x : string) :
  x ∈ arr -> exists i, indexOf arr x = Some i.
Proof.
  intros Hin. destruct (indexOf arr x) as [i|] eqn:E; [eauto|].
  apply indexOf_None in E. contradiction.
Qed.
End StringFacts.

(* ===================================================================== *)
(** ** Properties of the tree *)
(* ===================================================================== *)

Section MerkleFacts.
Import JS Merkle.

Lemma depth_loop_bound (fuel pow n : nat) :
  n <= 2 ^ (pow + fuel) -> n <= 2 ^ depth_loop fuel pow n.
Proof.
  revert pow. induction fuel as [|fuel IH]; intros pow H; simpl.
  - rewrite Nat.add_0_r in H. exact H.
  - destruct (Nat.ltb_spec (2 ^ pow) n) as [Hlt|Hge]; [|exact Hge].
    apply IH. replace (S pow + fuel) with (pow + S fuel) by lia. exact H.
Qed.

Lemma computeDepth_bound (n : nat) : n <= 2 ^ computeDepth n.
Proof.
  apply depth_loop_bound. simpl.
  pose proof (Nat.pow_gt_lin_r 2 n). lia.
Qed.

Lemma depth_loop_pow2 (k fuel pow : nat) :
  pow <= k -> k - pow <= fuel -> depth_loop fuel pow (2 ^ k) = k.
Proof.
  revert pow. induction fuel as [|fuel IH]; intros pow Hle Hfuel; simpl.
  - lia.
  - destruct (Nat.ltb_spec (2 ^ pow) (2 ^ k)) as [Hlt|Hge].
    + apply Nat.pow_lt_mono_r_iff in Hlt; [|lia]. apply IH; lia.
    + apply Nat.pow_le_mono_r_iff in Hge; lia.
Qed.

Lemma computeDepth_pow2 (k : nat) : computeDepth (2 ^ k) = k.
Proof.
  apply depth_loop_pow2; [lia|].
  pose proof (Nat.pow_gt_lin_r 2 k). lia.
Qed.

(** [getNodes] by pairs: an induction principle that follows its cases. *)
Lemma pairs_ind (P : list string -> Prop) :
  P [] -> (forall a, P [a]) -> (forall a b r, P r -> P (a :: b :: r)) ->
  forall l, P l.
Proof.
  intros H0 H1 H2 l.
  enough (H : P l /\ forall a, P (a :: l)) by apply H.
  induction l as [|b r [IH1 IH2]]; split; auto.
Qed.

Lemma length_getNodes (l : list string) :
  length (getNodes l) = Nat.div2 (S (length l)).
Proof.
  induction l as [|a|a b r IH] using pairs_ind; simpl; [reflexivity..|].
  rewrite IH. reflexivity.
Qed.

Lemma getNodes_pair (l : list string) (k : nat) (a b : string) :
  l !! (2 * k) = Some a -> l !! (2 * k + 1) = Some b ->
  getNodes l !! k = Some (hashPair a b).
Proof.
  revert k. induction l as [|x|x y r IH] using pairs_ind; intros k Ha Hb.
  - discriminate.
  - destruct k; simpl in *; discriminate.
  - destruct k as [|k].
    + simpl in *. congruence.
    + replace (2 * S k) with (S (S (2 * k))) in Ha by lia.
      replace (2 * S k + 1) with (S (S (2 * k + 1))) in Hb by lia.
      simpl in Ha, Hb. simpl. apply IH; assumption.
Qed.

Lemma length_rows_above (d : nat) (l : list string) :
  length (rows_above d l) = S d.
Proof. revert l. induction d as [|d IH]; intros l; simpl; [|rewrite IH]; reflexivity. Qed.

Lemma rows_above_bottom (d : nat) (l : list string) : rows_above d l !! 0 = Some l.
Proof. destruct d; reflexivity. Qed.

(** The top row of a tree deep enough for its leaves has at most one
    node. *)
Lemma rows_above_top (d : nat) (l top : list string) :
  length l <= 2 ^ d -> rows_above d l !! d = Some top -> length top <= 1.
Proof.
  revert l. induction d as [|d IH]; intros l Hlen Htop.
  - simpl in *. injection Htop as <-. lia.
  - apply (IH (getNodes l)); [|exact Htop].
    rewrite length_getNodes. rewrite Nat.pow_succ_r' in Hlen.
    pose proof (Nat.div2_odd (S (length l))) as E.
    destruct (Nat.odd (S (length l))); cbn [Nat.b2n] in E; lia.
Qed.

Lemma rows_above_top_nonempty (d : nat) (l : list string) :
  0 < length l -> exists top, rows_above d l !! d = Some top /\ 0 < length top.
Proof.
  revert l. induction d as [|d IH]; intros l Hl.
  - exists l. split; [reflexivity | exact Hl].
  - cbn [rows_above]. apply (IH (getNodes l)).
    destruct l as [|a [|b r]]; simpl in *; lia.
Qed.

(** On a tree that [sync] built, [depth()] finds its cache consistent. *)
Lemma depth_sync (data : list string) :
  depth (sync data) = (Return (treeDepth (sync data)), sync data).
Proof.
  unfold depth. destruct (Nat.eqb (treeDepth (sync data)) 0); reflexivity.
Qed.

Lemma levels_sync (data : list string) :
  levels (sync data) = (Return (S (treeDepth (sync data))), sync data).
Proof.
  unfold levels, bind. rewrite depth_sync. unfold ret.
  rewrite Nat.add_1_r. reflexivity.
Qed.

Lemma rows_sync (data : list string) (i : nat) :
  i <= treeDepth (sync data) ->
  rows (sync data) !! i
  = rows_above (treeDepth (sync data)) (map feed data) !! (treeDepth (sync data) - i).
Proof.
  intros Hi. unfold sync at 1. simpl rows. simpl in Hi.
  rewrite reverse_lookup by (rewrite length_rows_above; lia).
  rewrite length_rows_above. reflexivity.
Qed.
End MerkleFacts.

(* ===================================================================== *)
(** ** [prove] as a walk over the levels *)
(* ===================================================================== *)

Section ProveFacts.
Import JS ProofJS.

Lemma even_mod2 (n : nat) : Nat.eqb (n mod 2) 0 = Nat.even n.
Proof.
  pose proof (Nat.div2_odd n) as E. rewrite <- Nat.negb_even in E.
  assert (Hm : Nat.b2n (negb (Nat.even n)) = n mod 2).
  { apply (Nat.mod_unique n 2 (Nat.div2 n)); [destruct (Nat.even n); simpl; lia | exact E]. }
  rewrite <- Hm. destruct (Nat.even n); reflexivity.
Qed.

(** One turn of the [for] loop is one step of the walk. *)
Lemma loop_turn_walk_step (level : list string) (index : nat) (branches : value) :
  ((if Nat.eqb (index mod 2) 0
    then VArr [branches; elem level (index + 1)]
    else VArr [elem level (index - 1); branches]),
   index / 2)
  = walk_step (branches, index) level.
Proof.
  unfold walk_step. rewrite even_mod2, Nat.add_1_r, Nat.sub_1_r, Nat.div2_div.
  reflexivity.
Qed.

Lemma on_tree_level (p : Proof) (i : nat) :
  on_tree (Merkle.level i) p = (Return (Merkle.rows (_tree p) !! i), p).
Proof. destruct p. reflexivity. Qed.

Lemma walk_cons (level : list string) (rest : list (list string))
    (branch : value) (index : nat) :
  walk (level :: rest) branch index
  = walk rest (fst (walk_step (branch, index) level)) (snd (walk_step (branch, index) level)).
Proof. unfold walk. simpl fold_left. destruct (walk_step (branch, index) level). reflexivity. Qed.

(** The loop entered at [i] walks the levels [i], [i-1], ..., [1], and
    leaves the instance as it found it. *)
Lemma prove_loop_walk (p : Proof) (i : nat) :
  i < length (Merkle.rows (_tree p)) ->
  forall index branches,
    prove_loop i index branches p
    = (Return (walk (map (map toLowerCase)
                       (reverse (take i (drop 1 (Merkle.rows (_tree p))))))
                    branches index), p).
Proof.
  induction i as [|i IH]; intros Hi index branches.
  - reflexivity.
  - destruct (lookup_lt_is_Some_2 _ _ Hi) as [row Hrow].
    cbn [prove_loop]. unfold bind at 1. rewrite on_tree_level, Hrow.
    unfold bind at 1. cbn [deref ret].
    rewrite IH by lia.
    rewrite (take_S_r _ _ row) by (rewrite lookup_drop; exact Hrow).
    rewrite reverse_snoc. cbn [map]. rewrite walk_cons.
    rewrite <- loop_turn_walk_step. reflexivity.
Qed.

Lemma rows_Proof_of (ls : list string) :
  length (Merkle.rows (_tree (Proof_of ls)))
  = S (Merkle.treeDepth (_tree (Proof_of ls))).
Proof.
  unfold Proof_of, Merkle.sync. cbn [_tree Merkle.rows Merkle.treeDepth].
  rewrite length_reverse, length_rows_above. reflexivity.
Qed.

Lemma bottom_Proof_of (ls : list string) :
  Merkle.rows (_tree (Proof_of ls)) !! Merkle.treeDepth (_tree (Proof_of ls))
  = Some (Merkle.leaves (_tree (Proof_of ls))).
Proof.
  unfold Proof_of. cbn [_tree]. rewrite rows_sync by lia.
  rewrite Nat.sub_diag. apply rows_above_bottom.
Qed.

Lemma on_tree_levels (ls : list string) :
  on_tree Merkle.levels (Proof_of ls)
  = (Return (S (Merkle.treeDepth (_tree (Proof_of ls)))), Proof_of ls).
Proof. unfold on_tree, Proof_of. cbn [_tree]. rewrite levels_sync. reflexivity. Qed.

(** What [prove] returns on an instance built by the constructor. *)
Lemma prove_Proof_of (ls : list string) (challenge : string) (shard : Buffer) :
  prove challenge shard (Proof_of ls)
  = (Return
       match indexOf (Merkle.leaves (_tree (Proof_of ls)))
                     (toUpperCase (leaf_of challenge shard)) with
       | None => VArr []
       | Some index =>
           walk (levels_to_1 (Proof_of ls)) (VArr [VStr (response challenge shard)]) index
       end,
     Proof_of ls).
Proof.
  unfold prove. unfold bind at 1. rewrite on_tree_levels.
  unfold bind at 1. rewrite on_tree_level.
  replace (S (Merkle.treeDepth (_tree (Proof_of ls))) - 1)
    with (Merkle.treeDepth (_tree (Proof_of ls))) by lia.
  rewrite bottom_Proof_of. unfold bind at 1. cbn [deref ret].
  fold (response challenge shard). fold (leaf_of challenge shard).
  destruct (indexOf _ _) as [index|]; [|reflexivity].
  unfold bind at 1. rewrite on_tree_levels.
  rewrite prove_loop_walk by (rewrite rows_Proof_of; lia).
  replace (S (Merkle.treeDepth (_tree (Proof_of ls))) - 1)
    with (Merkle.treeDepth (_tree (Proof_of ls))) by lia.
  rewrite take_ge by (rewrite length_drop, rows_Proof_of; lia).
  reflexivity.
Qed.
End ProveFacts.

(* ===================================================================== *)
(** ** Digesting a branch back to the root *)
(* ===================================================================== *)

Section Soundness.
Import JS ProofJS Merkle Verifier.

Lemma stable_upper (s : string) : stable (toUpperCase s).
Proof. apply upper_lower_upper. Qed.

Lemma feed_stable (data : string) : stable (feed data).
Proof. unfold feed. destruct (hashResultRegexp data); apply stable_upper. Qed.

Lemma getNodes_stable (l : list string) :
  Forall stable l -> Forall stable (getNodes l).
Proof.
  induction l as [|a|a b r IH] using pairs_ind; intros H; simpl; auto.
  inversion H as [|? ? _ H']; subst. inversion H' as [|? ? _ H'']; subst.
  constructor; [apply stable_upper | auto].
Qed.

Lemma elem_map_lower (l : list string) (k : nat) :
  elem (map toLowerCase l) k
  = match l !! k with Some s => VStr (toLowerCase s) | None => VUndef end.
Proof.
  unfold elem. change (map toLowerCase l) with (toLowerCase <$> l).
  rewrite list_lookup_fmap. destruct (l !! k); reflexivity.
Qed.

Lemma walk_step_array (st : value * nat) (level : list string) :
  is_array (fst (walk_step st level)).
Proof. destruct st as [br i]. simpl. destruct (Nat.even i); eexists; reflexivity. Qed.

Lemma walk_step_nonempty (st : value * nat) (level : list string) :
  fst (walk_step st level) <> VArr [].
Proof. destruct st as [br i]. simpl. destruct (Nat.even i); discriminate. Qed.

Lemma walk_nonempty (levels : list (list string)) (branch : value) (index : nat) :
  branch <> VArr [] -> walk levels branch index <> VArr [].
Proof.
  revert branch index. induction levels as [|lv rest IH]; intros br i H.
  - exact H.
  - rewrite walk_cons. apply IH, walk_step_nonempty.
Qed.

Lemma walk_keeps_undef (levels : list (list string)) (branch : value) (index : nat) :
  has_undef branch = true -> has_undef (walk levels branch index) = true.
Proof.
  revert branch index. induction levels as [|lv rest IH]; intros br i H.
  - exact H.
  - rewrite walk_cons. apply IH. simpl.
    destruct (Nat.even i); simpl; rewrite H; rewrite ?orb_true_r; reflexivity.
Qed.

Lemma even_pair (i : nat) : Nat.even i = true -> i = 2 * Nat.div2 i.
Proof.
  intros H. pose proof (Nat.div2_odd i) as E.
  rewrite <- Nat.negb_even, H in E. cbn [negb Nat.b2n] in E. lia.
Qed.

Lemma odd_pair (i : nat) : Nat.even i = false -> i = 2 * Nat.div2 i + 1.
Proof.
  intros H. pose proof (Nat.div2_odd i) as E.
  rewrite <- Nat.negb_even, H in E. cbn [negb Nat.b2n] in E. lia.
Qed.

Lemma collapse_left (norm : string -> string) (elems : list value) (s : string) :
  collapse norm (VArr [VArr elems; VStr s])
  = match collapse norm (VArr elems) with
    | Some hl => Some (norm (sha256 (hl ++ norm s)))
    | None => None
    end.
Proof. reflexivity. Qed.

Lemma collapse_right (norm : string -> string) (elems : list value) (s : string) :
  collapse norm (VArr [VStr s; VArr elems])
  = match collapse norm (VArr elems) with
    | Some hr => Some (norm (sha256 (norm s ++ hr)))
    | None => None
    end.
Proof. reflexivity. Qed.

Lemma digest_left (branch : value) (x s : string) :
  is_array branch -> pairwise_digest_upper branch = Some x -> stable s ->
  pairwise_digest_upper (VArr [branch; VStr (toLowerCase s)]) = Some (hashPair x s).
Proof.
  intros [es ->] Hx Hs. unfold pairwise_digest_upper in *.
  rewrite collapse_left, Hx, Hs. reflexivity.
Qed.

Lemma digest_right (branch : value) (x s : string) :
  is_array branch -> pairwise_digest_upper branch = Some x -> stable s ->
  pairwise_digest_upper (VArr [VStr (toLowerCase s); branch]) = Some (hashPair s x).
Proof.
  intros [es ->] Hx Hs. unfold pairwise_digest_upper in *.
  rewrite collapse_right, Hx, Hs. reflexivity.
Qed.

(** The invariant of the walk: the running branch digests to the node the
    running index points at. *)
Lemma walk_sound (d : nat) :
  forall (l : list string) (index : nat) (branch : value) (x : string),
    Forall stable l -> l !! index = Some x ->
    is_array branch -> pairwise_digest_upper branch = Some x ->
    has_undef (walk (map (map toLowerCase) (take d (rows_above d l))) branch index) = false ->
    exists top k y,
      rows_above d l !! d = Some top /\ top !! k = Some y /\
      pairwise_digest_upper
        (walk (map (map toLowerCase) (take d (rows_above d l))) branch index) = Some y.
Proof.
  induction d as [|d IH]; intros l index br x Hst Hx Harr Hdig Hundef.
  - exists l, index, x. auto.
  - cbn [rows_above take map] in *. rewrite walk_cons in *.
    cbn [lookup list_lookup].
    set (st := walk_step (br, index) (map toLowerCase l)) in *.
    assert (Hnode : exists x', getNodes l !! snd st = Some x' /\
                               pairwise_digest_upper (fst st) = Some x').
    { subst st. cbn [walk_step fst snd] in *.
      destruct (Nat.even index) eqn:Ev.
      - rewrite elem_map_lower in *.
        destruct (l !! S index) as [s|] eqn:Hs.
        + exists (hashPair x s). split.
          * pose proof (even_pair index Ev) as Heven.
            apply getNodes_pair.
            -- rewrite <- Heven. exact Hx.
            -- replace (2 * Nat.div2 index + 1) with (S index) by lia. exact Hs.
          * apply digest_left; auto.
            eapply Forall_lookup_1; [exact Hst | exact Hs].
        + rewrite walk_keeps_undef in Hundef; [discriminate|].
          simpl. rewrite orb_true_r. reflexivity.
      - rewrite elem_map_lower in *.
        pose proof (odd_pair index Ev) as Hodd.
        assert (Hp : Nat.pred index = 2 * Nat.div2 index) by lia.
        destruct (l !! Nat.pred index) as [s|] eqn:Hs.
        + exists (hashPair s x). split.
          * apply getNodes_pair; [rewrite <- Hp | rewrite <- Hodd]; assumption.
          * apply digest_right; auto.
            eapply Forall_lookup_1; [exact Hst | exact Hs].
        + rewrite walk_keeps_undef in Hundef; [discriminate|]. reflexivity. }
    destruct Hnode as (x' & Hx' & Hdig').
    apply (IH (getNodes l) (snd st) (fst st) x'); auto.
    + apply getNodes_stable, Hst.
    + apply walk_step_array.
Qed.

(** With a power of two of leaves every node has its sibling. *)
Lemma walk_defined (d : nat) :
  forall (l : list string) (index : nat) (branch : value),
    length l = 2 ^ d -> index < length l -> has_undef branch = false ->
    has_undef (walk (map (map toLowerCase) (take d (rows_above d l))) branch index) = false.
Proof.
  induction d as [|d IH]; intros l index br Hlen Hi Hbr.
  - exact Hbr.
  - cbn [rows_above take map]. rewrite walk_cons.
    rewrite Nat.pow_succ_r' in Hlen.
    assert (Hlen' : length (getNodes l) = 2 ^ d).
    { rewrite length_getNodes.
      pose proof (Nat.div2_odd (S (length l))) as E.
      destruct (Nat.odd (S (length l))) eqn:O; cbn [Nat.b2n] in E; [lia|].
      exfalso. rewrite Nat.odd_succ in O.
      apply (f_equal negb) in O. rewrite Nat.negb_even in O. cbn in O.
      apply Nat.odd_spec in O as [m Hm]. pose proof (Nat.pow_nonzero 2 d). lia. }
    cbn [walk_step fst snd].
    apply IH; [exact Hlen' | |].
    + rewrite Hlen'. destruct (Nat.even index) eqn:Ev;
        [pose proof (even_pair index Ev) | pose proof (odd_pair index Ev)]; lia.
    + destruct (Nat.even index) eqn:Ev; rewrite elem_map_lower.
      * pose proof (even_pair index Ev).
        destruct (lookup_lt_is_Some_2 l (S index)) as [s ->]; [lia|].
        simpl. rewrite Hbr. reflexivity.
      * pose proof (odd_pair index Ev).
        destruct (lookup_lt_is_Some_2 l (Nat.pred index)) as [s ->]; [lia|].
        simpl. rewrite Hbr. reflexivity.
Qed.

Lemma levels_to_1_Proof_of (ls : list string) :
  levels_to_1 (Proof_of ls)
  = map (map toLowerCase)
      (take (treeDepth (_tree (Proof_of ls)))
         (rows_above (treeDepth (_tree (Proof_of ls))) (leaves (_tree (Proof_of ls))))).
Proof.
  unfold levels_to_1, Proof_of, sync. cbn [_tree rows treeDepth leaves].
  rewrite drop_reverse, reverse_involutive, length_rows_above.
  do 2 f_equal. lia.
Qed.

Lemma root_Proof_of (ls : list string) (top : list string) :
  rows_above (treeDepth (_tree (Proof_of ls))) (leaves (_tree (Proof_of ls)))
    !! treeDepth (_tree (Proof_of ls)) = Some top ->
  root (_tree (Proof_of ls)) = top !! 0 /\ length top <= 1.
Proof.
  intros Htop. split.
  - unfold root, Proof_of in *. cbn [_tree] in *.
    rewrite rows_sync by lia. rewrite Nat.sub_0_r.
    change (map feed (map toLowerCase ls)) with (leaves (sync (map toLowerCase ls))).
    rewrite Htop. reflexivity.
  - eapply rows_above_top; [|exact Htop].
    unfold Proof_of, sync. cbn [_tree treeDepth leaves]. apply computeDepth_bound.
Qed.

Lemma leaf_stored (ls : list string) (challenge : string) (shard : Buffer) :
  leaf_of challenge shard ∈ ls ->
  toUpperCase (leaf_of challenge shard) ∈ leaves (_tree (Proof_of ls)).
Proof.
  intros Hin. unfold Proof_of, sync. cbn [_tree leaves].
  apply list_elem_of_In, in_map_iff. exists (leaf_of challenge shard). split.
  - unfold feed, leaf_of. rewrite sha256_is_hash. reflexivity.
  - apply in_map_iff. exists (leaf_of challenge shard). split.
    + apply sha256_lower.
    + apply list_elem_of_In, Hin.
Qed.
End Soundness.

(* ===================================================================== *)
(** ** The proof engine: stated properties *)
(* ===================================================================== *)

Section ProofEngine.
Import JS ProofJS Merkle Verifier.

Lemma lower_all_strings (ls : list string) :
  lower_all (map VStr ls) = Return (map toLowerCase ls).
Proof. induction ls as [|s r IH]; simpl; [|rewrite IH]; reflexivity. Qed.

Lemma new_Proof_array (ls : list string) :
  new_Proof (VArr (map VStr ls)) = Return (Proof_of ls).
Proof. unfold new_Proof. rewrite lower_all_strings. reflexivity. Qed.

Lemma lower_all_inv (elems : list value) (l : list string) :
  lower_all elems = Return l ->
  exists ls, elems = map VStr ls /\ l = map toLowerCase ls.
Proof.
  revert l. induction elems as [|v r IH]; intros l H.
  - injection H as <-. exists []. split; reflexivity.
  - destruct v as [| | | |s|]; try discriminate H.
    cbn [lower_all] in H. destruct (lower_all r) as [l'|e]; [|discriminate].
    injection H as <-. destruct (IH l' eq_refl) as (ls & -> & ->).
    exists (s :: ls). split; reflexivity.
Qed.

(** The instances the constructor returns are those built from an array of
    strings. *)
Lemma new_Proof_inv (arg : value) (p : Proof) :
  new_Proof arg = Return p -> exists ls, arg = VArr (map VStr ls) /\ p = Proof_of ls.
Proof.
  destruct arg as [| | | | |elems]; try discriminate. unfold new_Proof.
  destruct (lower_all elems) as [l|e] eqn:E; [|discriminate].
  intros [= <-]. destruct (lower_all_inv elems l E) as (ls & -> & ->).
  exists ls. split; reflexivity.
Qed.

Lemma bottom_eq (ls : list string) :
  bottom (Proof_of ls) = leaves (_tree (Proof_of ls)).
Proof.
  unfold bottom. rewrite last_lookup, rows_Proof_of. cbn [Nat.pred].
  rewrite bottom_Proof_of. reflexivity.
Qed.

Lemma upper_idem (s : string) : toUpperCase (toUpperCase s) = toUpperCase s.
Proof.
  induction s as [|c s IH]; simpl; [reflexivity|]. rewrite IH. f_equal.
  destruct c as [[] [] [] [] [] [] [] []]; reflexivity.
Qed.

Lemma rows_above_chain (d : nat) (l : list string) (j : nat) (up : list string) :
  rows_above d l !! S j = Some up ->
  exists below, rows_above d l !! j = Some below /\ up = getNodes below.
Proof.
  revert l j. induction d as [|d IH]; intros l j H.
  - discriminate.
  - cbn [rows_above] in *. destruct j as [|j].
    + exists l. split; [reflexivity|].
      simpl in H. rewrite rows_above_bottom in H. congruence.
    + apply (IH (getNodes l) j). exact H.
Qed.
End ProofEngine.

(** The branch for the second of two leaves: the lower-cased first leaf,
    then the response. *)
Example prove_second_of_two :
  fst (prove "b" shard_test (Proof_of (leaves_of ["a"; "b"])))
  = Return (VArr [VStr (leaf_of "a" shard_test); VArr [VStr (response "b" shard_test)]]).
Proof. vm_compute. reflexivity. Qed.

(** The branch for the third of three leaves: level 2 has no element at
    index 3, and the node of level 1 at index 0 digests the first two
    leaves. *)
Example prove_third_of_three :
  fst (prove "c" shard_test (Proof_of (leaves_of ["a"; "b"; "c"])))
  = Return (VArr [VStr (toLowerCase
                          (Merkle.hashPair (toUpperCase (leaf_of "a" shard_test))
                                           (toUpperCase (leaf_of "b" shard_test))));
                  VArr [VArr [VStr (response "c" shard_test)]; VUndef]]).
Proof. vm_compute. reflexivity. Qed.

(** A tree without leaves has one empty level, and no pair matches. *)
Example prove_on_empty_tree :
  prove "a" shard_test (Proof_of []) = (Return (VArr []), Proof_of []).
Proof. vm_compute. reflexivity. Qed.

(** C1, as amended: for every leaf built from a challenge and a shard when
    the tree was built, [prove] returns a non-empty branch and leaves the
    instance unchanged; when no sibling on the way up is missing, which is
    the case for every tree of [2^k] leaves, digesting the branch pairwise as
    the tree digests its nodes (SHA-256 over the upper-cased halves, in upper
    case) reconstructs exactly the root. *)
Theorem prove_inclusion_sound (ls : list string) (challenge : string) (shard : Buffer) :
  leaf_of challenge shard ∈ ls ->
  exists branch root,
    prove challenge shard (Proof_of ls) = (Return branch, Proof_of ls) /\
    branch <> VArr [] /\
    Merkle.root (_tree (Proof_of ls)) = Some root /\
    (has_undef branch = false -> Verifier.pairwise_digest_upper branch = Some root) /\
    (forall k, length ls = 2 ^ k -> has_undef branch = false).
Proof.
  intros Hin. apply leaf_stored in Hin.
  destruct (indexOf_elem _ _ Hin) as [i Hi].
  pose proof (indexOf_Some _ _ _ Hi) as Hx.
  set (d := Merkle.treeDepth (_tree (Proof_of ls))).
  set (lv := Merkle.leaves (_tree (Proof_of ls))) in *.
  set (br0 := VArr [VStr (response challenge shard)]).
  assert (Hst : Forall Merkle.stable lv).
  { subst lv. unfold Proof_of, Merkle.sync. cbn [_tree Merkle.leaves].
    apply Forall_forall. intros x [y [<- _]]%list_elem_of_In%in_map_iff. apply feed_stable. }
  assert (Hd0 : Verifier.pairwise_digest_upper br0 = Some (toUpperCase (leaf_of challenge shard)))
    by reflexivity.
  destruct (lookup_lt_is_Some_2 (Merkle.rows_above d lv) d) as [top Htop];
    [rewrite length_rows_above; lia|].
  destruct (root_Proof_of ls top Htop) as [Hroot Hlen].
  exists (walk (levels_to_1 (Proof_of ls)) br0 i).
  assert (Hundef : forall k, length ls = 2 ^ k ->
            has_undef (walk (levels_to_1 (Proof_of ls)) br0 i) = false).
  { intros k Hk. rewrite levels_to_1_Proof_of. fold d lv.
    assert (Hlv : length lv = 2 ^ k)
      by (subst lv; unfold Proof_of, Merkle.sync; cbn [_tree Merkle.leaves];
          rewrite !length_map; exact Hk).
    assert (Hdk : d = k).
    { subst d. unfold Proof_of, Merkle.sync. cbn [_tree Merkle.treeDepth].
      rewrite !length_map, Hk. apply computeDepth_pow2. }
    rewrite Hdk. apply walk_defined; [exact Hlv | | reflexivity].
    apply lookup_lt_Some in Hx. exact Hx. }
  destruct (top !! 0) as [root|] eqn:Htop0.
  - exists root. split; [|split; [|split; [|split]]].
    + rewrite prove_Proof_of. fold lv. rewrite Hi. reflexivity.
    + apply walk_nonempty. discriminate.
    + exact Hroot.
    + intros Hu. rewrite levels_to_1_Proof_of in *. fold d lv in Hu |- *.
      destruct (walk_sound d lv i br0 _ Hst Hx (ex_intro _ _ eq_refl) Hd0 Hu)
        as (top' & k & y & Htop' & Hk & Hy).
      rewrite Htop in Htop'. injection Htop' as <-.
      assert (k = 0) by (apply lookup_lt_Some in Hk; lia). subst k.
      rewrite Hy. congruence.
    + exact Hundef.
  - (* the top row holds a node: the one above the matching leaf *)
    exfalso.
    assert (Hlvpos : 0 < length lv) by (apply lookup_lt_Some in Hx; lia).
    destruct (rows_above_top_nonempty d lv Hlvpos) as (t & Ht & Hpos).
    rewrite Htop in Ht. injection Ht as <-.
    apply lookup_ge_None in Htop0. lia.
Qed.

Lemma prove_inclusion_sound_witness :
  exists branch root,
    prove "b" shard_test (Proof_of (leaves_of ["a"; "b"]))
      = (Return branch, Proof_of (leaves_of ["a"; "b"])) /\
    branch <> VArr [] /\
    Merkle.root (_tree (Proof_of (leaves_of ["a"; "b"]))) = Some root /\
    (has_undef branch = false -> Verifier.pairwise_digest_upper branch = Some root) /\
    (forall k, length (leaves_of ["a"; "b"]) = 2 ^ k -> has_undef branch = false).
Proof.
  apply (prove_inclusion_sound (leaves_of ["a"; "b"]) "b" shard_test).
  unfold leaves_of. simpl. apply list_elem_of_further, list_elem_of_here.
Defined.

(** C1, as stated, fails.  In a tree of three leaves the third leaf has no
    sibling on the deepest level: the branch [prove] returns holds
    [undefined] there, and digesting it does not give the root, whether the
    pairs are digested as they are or in upper case.  In a tree of two
    leaves the branch is complete, but its siblings are in lower case while
    the tree digested them in upper case, so that the plain SHA-256 of each
    pair does not give the root either. *)
Lemma prove_inclusion_unsound :
  (leaf_of "c" shard_test ∈ leaves_of ["a"; "b"; "c"] /\
   ~ reconstructs_root Verifier.pairwise_digest (leaves_of ["a"; "b"; "c"]) "c" shard_test /\
   ~ reconstructs_root Verifier.pairwise_digest_upper (leaves_of ["a"; "b"; "c"]) "c" shard_test) /\
  (leaf_of "a" shard_test ∈ leaves_of ["a"; "b"] /\
   ~ reconstructs_root Verifier.pairwise_digest (leaves_of ["a"; "b"]) "a" shard_test).
Proof.
  assert (Hno : forall digest ls c,
             (match fst (prove c shard_test (Proof_of ls)) with
              | Return branch =>
                  match digest branch, Merkle.root (_tree (Proof_of ls)) with
                  | Some h, Some r => negb (String.eqb h r)
                  | _, _ => true
                  end
              | Throw _ => true
              end) = true ->
             ~ reconstructs_root digest ls c shard_test).
  { intros digest ls c Hc (branch & root & Hb & _ & Hr & Hd).
    rewrite Hb, Hd, Hr, String.eqb_refl in Hc. discriminate. }
  repeat split.
  - unfold leaves_of. simpl. do 2 apply list_elem_of_further. apply list_elem_of_here.
  - apply Hno. vm_compute. reflexivity.
  - apply Hno. vm_compute. reflexivity.
  - unfold leaves_of. simpl. apply list_elem_of_here.
  - apply Hno. vm_compute. reflexivity.
Qed.

(** C2: when the leaf derived from the challenge and the shard is not among
    the leaves of the tree, compared without regard to case, [prove] returns
    the empty array and throws nothing. *)
Theorem prove_rejects_unknown_leaf (ls : list string) (challenge : string) (shard : Buffer) :
  (forall l, l ∈ bottom (Proof_of ls) ->
             toUpperCase l <> toUpperCase (leaf_of challenge shard)) ->
  prove challenge shard (Proof_of ls) = (Return (VArr []), Proof_of ls).
Proof.
  intros Hnot. rewrite prove_Proof_of.
  destruct (indexOf _ _) as [i|] eqn:Hi; [|reflexivity].
  exfalso. apply indexOf_Some in Hi.
  apply (Hnot (toUpperCase (leaf_of challenge shard))).
  - rewrite bottom_eq. eapply list_elem_of_lookup_2, Hi.
  - apply upper_idem.
Qed.

Lemma prove_rejects_unknown_leaf_witness :
  prove "z" shard_test (Proof_of (leaves_of ["a"; "b"; "c"]))
  = (Return (VArr []), Proof_of (leaves_of ["a"; "b"; "c"])).
Proof.
  apply (prove_rejects_unknown_leaf (leaves_of ["a"; "b"; "c"]) "z" shard_test).
  intros l Hl. rewrite bottom_eq in Hl. vm_compute in Hl.
  repeat (apply elem_of_cons in Hl as [-> | Hl]; [vm_compute; discriminate|]).
  apply elem_of_nil in Hl. destruct Hl.
Defined.

(** C3: on a tree built from exactly one leaf, [levels()] is 1, so that the
    loop of a matching call has no level to pair over, and the call returns
    exactly [[resp]]. *)
Theorem prove_single_leaf (leaf challenge : string) (shard : Buffer) :
  toUpperCase (leaf_of challenge shard) ∈ bottom (Proof_of [leaf]) ->
  on_tree Merkle.levels (Proof_of [leaf]) = (Return 1, Proof_of [leaf]) /\
  levels_to_1 (Proof_of [leaf]) = [] /\
  prove challenge shard (Proof_of [leaf])
  = (Return (VArr [VStr (sha256 (challenge ++ toString_hex shard))]), Proof_of [leaf]).
Proof.
  intros Hin. rewrite bottom_eq in Hin.
  destruct (indexOf_elem _ _ Hin) as [i Hi].
  split; [|split].
  - rewrite on_tree_levels. reflexivity.
  - reflexivity.
  - rewrite prove_Proof_of, Hi. reflexivity.
Qed.

Lemma prove_single_leaf_witness :
  on_tree Merkle.levels (Proof_of [leaf_of "a" shard_test])
  = (Return 1, Proof_of [leaf_of "a" shard_test]) /\
  levels_to_1 (Proof_of [leaf_of "a" shard_test]) = [] /\
  prove "a" shard_test (Proof_of [leaf_of "a" shard_test])
  = (Return (VArr [VStr (sha256 ("a" ++ toString_hex shard_test))]),
     Proof_of [leaf_of "a" shard_test]).
Proof.
  apply (prove_single_leaf (leaf_of "a" shard_test) "a" shard_test).
  rewrite bottom_eq. apply leaf_stored, list_elem_of_here.
Defined.

(** C4: when the leaf is found at index [i] of the deepest level, the branch
    is the walk from the deepest level to level 1 that starts from [[resp]]
    at [i]: at an even index the sibling is the element at [index + 1] and
    the running branch comes first, at an odd index the sibling is the
    element at [index - 1] and the running branch comes second, and the index
    is halved. *)
Theorem prove_walks_levels (ls : list string) (challenge : string) (shard : Buffer) (i : nat) :
  indexOf (bottom (Proof_of ls)) (toUpperCase (leaf_of challenge shard)) = Some i ->
  prove challenge shard (Proof_of ls)
  = (Return (walk (levels_to_1 (Proof_of ls))
                  (VArr [VStr (sha256 (challenge ++ toString_hex shard))]) i),
     Proof_of ls).
Proof.
  intros Hi. rewrite bottom_eq in Hi. rewrite prove_Proof_of, Hi. reflexivity.
Qed.

Lemma prove_walks_levels_witness :
  prove "c" shard_test (Proof_of (leaves_of ["a"; "b"; "c"; "d"]))
  = (Return (walk (levels_to_1 (Proof_of (leaves_of ["a"; "b"; "c"; "d"])))
                  (VArr [VStr (sha256 ("c" ++ toString_hex shard_test))]) 2),
     Proof_of (leaves_of ["a"; "b"; "c"; "d"])).
Proof.
  apply (prove_walks_levels (leaves_of ["a"; "b"; "c"; "d"]) "c" shard_test 2).
  vm_compute. reflexivity.
Defined.

(** C5, as amended: the constructor throws its assertion error for every
    argument that is not an array; for every array whose elements are all
    strings it succeeds, and, the leaves being of ASCII characters as
    hexadecimal digests are, the instance holds the tree computed over the
    lower-cased leaves: the leaves fed, as many rows as there are levels,
    the deepest of them the leaves and each other one computed from the row
    below it. *)
Theorem new_Proof_validates (arg : value) :
  (isArray arg = false ->
   new_Proof arg = Throw (AssertionError "Merkle leaves must be an array")) /\
  (forall ls, arg = VArr (map VStr ls) ->
     exists p,
       new_Proof arg = Return p /\
       (forallb is_ascii ls = true ->
        _tree p = Merkle.sync (map toLowerCase ls) /\
        Merkle.leaves (_tree p) = map Merkle.feed (map toLowerCase ls) /\
        length (Merkle.rows (_tree p)) = S (Merkle.computeDepth (length ls)) /\
        last (Merkle.rows (_tree p)) = Some (Merkle.leaves (_tree p)) /\
        (forall i up, Merkle.rows (_tree p) !! i = Some up ->
           S i < length (Merkle.rows (_tree p)) ->
           exists below, Merkle.rows (_tree p) !! S i = Some below /\
                         up = Merkle.getNodes below))).
Proof.
  split.
  - destruct arg; [reflexivity.. | discriminate].
  - intros ls ->. exists (Proof_of ls). rewrite new_Proof_array.
    split; [reflexivity|]. intros _.
    split; [reflexivity|]. split; [reflexivity|].
    pose proof (rows_Proof_of ls) as Hlen.
    split; [|split].
    + rewrite Hlen. unfold Proof_of, Merkle.sync. cbn [_tree Merkle.treeDepth].
      rewrite !length_map. reflexivity.
    + rewrite last_lookup, Hlen. cbn [Nat.pred]. apply bottom_Proof_of.
    + intros i up Hup Hi. rewrite Hlen in Hi.
      unfold Proof_of in *. cbn [_tree] in *.
      rewrite rows_sync in Hup |- * by lia.
      set (d := Merkle.treeDepth _) in *.
      replace (d - i) with (S (d - S i)) in Hup by lia.
      apply rows_above_chain in Hup. exact Hup.
Qed.

Lemma new_Proof_validates_witness :
  new_Proof VUndef = Throw (AssertionError "Merkle leaves must be an array") /\
  exists p, new_Proof (VArr (map VStr (leaves_of ["a"; "b"]))) = Return p /\
            _tree p = Merkle.sync (map toLowerCase (leaves_of ["a"; "b"])).
Proof.
  split.
  - apply (proj1 (new_Proof_validates VUndef)). reflexivity.
  - destruct (proj2 (new_Proof_validates (VArr (map VStr (leaves_of ["a"; "b"]))))
                (leaves_of ["a"; "b"]) eq_refl) as (p & Hp & Ht).
    exists p. split; [exact Hp|].
    apply Ht. vm_compute. reflexivity.
Defined.

(** C5, as stated, fails: being an array is not enough for the constructor
    to succeed.  On the array whose one element is the number 42 the
    assertion passes, and [leaf.toLowerCase()] throws a [TypeError]. *)
Lemma new_Proof_array_fails :
  isArray (VArr [VNum 42]) = true /\
  new_Proof (VArr [VNum 42]) = Throw TypeError.
Proof. split; reflexivity. Qed.

(** C10: on every instance the constructor returned, a call of [prove]
    hands the instance back as it was, tree included, and a second call with
    the same arguments returns what the first one returned. *)
Theorem prove_is_pure (arg : value) (p : Proof) (challenge : string) (shard : Buffer) :
  new_Proof arg = Return p ->
  snd (prove challenge shard p) = p /\
  _tree (snd (prove challenge shard p)) = _tree p /\
  prove challenge shard (snd (prove challenge shard p)) = prove challenge shard p.
Proof.
  intros (ls & _ & ->)%new_Proof_inv.
  rewrite prove_Proof_of. cbn [snd]. rewrite prove_Proof_of. auto.
Qed.

Lemma prove_is_pure_witness :
  snd (prove "a" shard_test (Proof_of (leaves_of ["a"; "b"; "c"])))
  = Proof_of (leaves_of ["a"; "b"; "c"]) /\
  _tree (snd (prove "a" shard_test (Proof_of (leaves_of ["a"; "b"; "c"]))))
  = _tree (Proof_of (leaves_of ["a"; "b"; "c"])) /\
  prove "a" shard_test (snd (prove "a" shard_test (Proof_of (leaves_of ["a"; "b"; "c"]))))
  = prove "a" shard_test (Proof_of (leaves_of ["a"; "b"; "c"])).
Proof.
  apply (prove_is_pure (VArr (map VStr (leaves_of ["a"; "b"; "c"])))
           (Proof_of (leaves_of ["a"; "b"; "c"])) "a" shard_test).
  apply new_Proof_array.
Defined.

(* ===================================================================== *)
(** ** The storage adapters: stated properties *)
(* ===================================================================== *)

Section ChunkFacts.
Import JS.
Context {A : Type}.

End ChunkFacts.

Section FileStoreFacts.
Import JS Storage LevelDB LevelDBFileStore.


Lemma put_chunks_other (fileId other : string) (pcs : list Buffer) :
  other <> fileId ->
  forall i m j, put_chunks fileId i pcs m !! (other, j) = m !! (other, j).
Proof.
  intros Hne. induction pcs as [|c r IH]; intros i m j; [reflexivity|].
  cbn [put_chunks]. rewrite IH.
  apply lookup_insert_ne. intros [= -> _]. congruence.
Qed.










End FileStoreFacts.

(** X10: upload in place on the in-memory adapter.  A write to the stream
    that [get] hands out for an item without shard bytes returns [true], and
    what was written is what the next [get] of the key replays. *)
Lemma ram_write_then_get (key : string) (item : metadata) (data : Buffer)
    (s : RAMStorageAdapter.store) :
  RAMStorageAdapter._items s !! key = Some item ->
  RAMStorageAdapter._shards s !! key = None ->
  exists st s',
    RAMStorageAdapter._get key s = (Return (item, st), s) /\
    RAMStorageAdapter.write st data s = (Return true, s') /\
    RAMStorageAdapter._get key s' = (Return (item, Readable data), s').
Proof.
  intros Hitem Hshard. unfold RAMStorageAdapter._get. rewrite Hitem, Hshard.
  eexists. eexists. split; [reflexivity|]. split; [reflexivity|].
  cbn [RAMStorageAdapter._items RAMStorageAdapter._shards].
  rewrite Hitem, Hshard, lookup_insert_eq. reflexivity.
Qed.

(** C6: [get] of the in-memory adapter has three outcomes.  Without an item
    record it fails with "Shard data not found"; with an item record and no
    shard bytes it succeeds with a writable stream; with an item record and
    shard bytes it succeeds with a readable stream that replays exactly
    those bytes.  The store is left as it was. *)
Theorem ram_get_three_way (key : string) (s : RAMStorageAdapter.store) :
  (RAMStorageAdapter._items s !! key = None ->
   RAMStorageAdapter._get key s = (Throw (NotFoundError "Shard data not found"), s)) /\
  (forall item,
     RAMStorageAdapter._items s !! key = Some item ->
     RAMStorageAdapter._shards s !! key = None ->
     exists st, RAMStorageAdapter._get key s = (Return (item, st), s) /\
                is_writable st = true) /\
  (forall item bytes,
     RAMStorageAdapter._items s !! key = Some item ->
     RAMStorageAdapter._shards s !! key = Some bytes ->
     exists st, RAMStorageAdapter._get key s = (Return (item, st), s) /\
                is_readable st = true /\ read_all st = Some bytes).
Proof.
  unfold RAMStorageAdapter._get. split; [|split].
  - intros ->. reflexivity.
  - intros item -> ->. eexists. split; reflexivity.
  - intros item bytes -> ->. eexists. split; [|split]; reflexivity.
Qed.

Lemma ram_get_three_way_witness :
  RAMStorageAdapter._get key_test RAMStorageAdapter.empty
  = (Throw (NotFoundError "Shard data not found"), RAMStorageAdapter.empty) /\
  (exists st,
     RAMStorageAdapter._get key_test (RAMStorageAdapter.Store {[key_test := item_test]} ∅)
     = (Return (item_test, st), RAMStorageAdapter.Store {[key_test := item_test]} ∅) /\
     is_writable st = true) /\
  (exists st,
     RAMStorageAdapter._get key_test
       (RAMStorageAdapter.Store {[key_test := item_test]} {[key_test := hello]})
     = (Return (item_test, st),
        RAMStorageAdapter.Store {[key_test := item_test]} {[key_test := hello]}) /\
     is_readable st = true /\ read_all st = Some hello).
Proof.
  split; [|split].
  - apply (proj1 (ram_get_three_way key_test RAMStorageAdapter.empty)).
    apply lookup_empty.
  - apply (proj1 (proj2 (ram_get_three_way key_test
             (RAMStorageAdapter.Store {[key_test := item_test]} ∅)))).
    + apply lookup_singleton_eq.
    + apply lookup_empty.
  - apply (proj2 (proj2 (ram_get_three_way key_test
             (RAMStorageAdapter.Store {[key_test := item_test]} {[key_test := hello]})))).
    + apply lookup_singleton_eq.
    + apply lookup_singleton_eq.
Defined.

(** C7: [delete] removes the metadata entry first and resets the blob
    second.  When the removal fails, the operation reports that failure and
    the engine, blob included, is as it was; when the removal succeeds and
    the reset fails, the operation reports the failure of the reset, the
    metadata entry is gone and the chunk records are still there; when both
    succeed, the operation succeeds, and neither the entry nor any chunk
    record of the key is left. *)
Theorem del_metadata_then_blob (f : faults) (key : string) (eng : engine) :
  (forall e, del_fails f = Some e ->
     LevelDBStorageAdapter._del f key eng = (Throw e, eng) /\
     read_stream binary key (snd (LevelDBStorageAdapter._del f key eng))
     = read_stream binary key eng) /\
  (forall e, del_fails f = None -> reset_fails f = Some e ->
     exists eng',
       LevelDBStorageAdapter._del f key eng = (Throw e, eng') /\
       entries eng' !! key = None /\
       chunks eng' = chunks eng) /\
  (del_fails f = None -> reset_fails f = None ->
     exists eng',
       LevelDBStorageAdapter._del f key eng = (Return tt, eng') /\
       entries eng' !! key = None /\
       (forall i, chunks eng' !! (key, i) = None) /\
       (forall other i, other <> key -> chunks eng' !! (other, i) = chunks eng !! (other, i))).
Proof.
  unfold LevelDBStorageAdapter._del, db_del, reset, guarded, bind, throw.
  split; [|split].
  - intros e ->. split; reflexivity.
  - intros e -> ->. eexists. split; [reflexivity|]. split; [|reflexivity].
    apply lookup_delete_eq.
  - intros -> ->. eexists. split; [reflexivity|]. cbn [entries chunks].
    split; [apply lookup_delete_eq|]. split.
    + intros i. apply map_lookup_filter_None. right. intros x _ Hne. apply Hne. reflexivity.
    + intros other i Hne. destruct (chunks eng !! (other, i)) as [c|] eqn:E.
      * apply map_lookup_filter_Some. split; [exact E | exact Hne].
      * apply map_lookup_filter_None. left. exact E.
Qed.

Lemma del_metadata_then_blob_witness :
  LevelDBStorageAdapter._del (Faults None None (failed "Failed to delete") None None)
    key_test engine_test
  = (Throw (EngineError "Failed to delete"), engine_test) /\
  (exists eng',
     LevelDBStorageAdapter._del (Faults None None None None (failed "Failed to delete"))
       key_test engine_test
     = (Throw (EngineError "Failed to delete"), eng') /\
     entries eng' !! key_test = None /\ chunks eng' = chunks engine_test) /\
  (exists eng',
     LevelDBStorageAdapter._del no_faults key_test engine_test = (Return tt, eng') /\
     entries eng' !! key_test = None /\
     forall i, chunks eng' !! (key_test, i) = None).
Proof.
  split; [|split].
  - apply (proj1 (del_metadata_then_blob
             (Faults None None (failed "Failed to delete") None None) key_test engine_test)
             (EngineError "Failed to delete")).
    reflexivity.
  - apply (proj1 (proj2 (del_metadata_then_blob
             (Faults None None None None (failed "Failed to delete")) key_test engine_test))
             (EngineError "Failed to delete")); reflexivity.
  - destruct (proj2 (proj2 (del_metadata_then_blob no_faults key_test engine_test))
                eq_refl eq_refl) as (eng' & H1 & H2 & H3 & _).
    exists eng'. auto.
Defined.




(** C9: whatever the engine is and whatever state it keeps, when one of its
    operations fails during [put] or [get] of the durable adapter (the
    metadata write, the blob write that follows it when the item carries a
    shard, the metadata read), the adapter ends there: its result is the
    error of that operation, and the engine is in the state that operation
    left it in, no operation having been made again or after it. *)
Theorem adapter_surfaces_engine_error {S : Type}
    (put : string -> metadata -> action S unit) (get : string -> action S metadata)
    (write : string -> Buffer -> action S unit) (read : string -> S -> stream)
    (key : string) (it : LevelDBStorageAdapter.item) (s s' : S) (e : error) :
  (put key (LevelDBStorageAdapter.record it) s = (Throw e, s') ->
   LevelDBStorageAdapter.put_on put write key it s = (Throw e, s')) /\
  (forall s1 data,
     put key (LevelDBStorageAdapter.record it) s = (Return tt, s1) ->
     LevelDBStorageAdapter.shard it = Some data ->
     write key data s1 = (Throw e, s') ->
     LevelDBStorageAdapter.put_on put write key it s = (Throw e, s')) /\
  (get key s = (Throw e, s') ->
   LevelDBStorageAdapter.get_on get read key s = (Throw e, s')).
Proof.
  unfold LevelDBStorageAdapter.put_on, LevelDBStorageAdapter.get_on, bind.
  split; [|split].
  - intros ->. reflexivity.
  - intros s1 data -> -> Hw. exact Hw.
  - intros ->. reflexivity.
Qed.

Lemma adapter_surfaces_engine_error_witness :
  LevelDBStorageAdapter.put_on FlakyEngine.put (FlakyEngine.write 4) key_test
    (LevelDBStorageAdapter.Item item_test (Some hello))
    (FlakyEngine.State (Engine ∅ ∅) [put_failing; no_faults] 0)
  = (Throw (EngineError "Failed"), FlakyEngine.State (Engine ∅ ∅) [no_faults] 1) /\
  LevelDBStorageAdapter.put_on FlakyEngine.put (FlakyEngine.write 4) key_test
    (LevelDBStorageAdapter.Item item_test (Some hello))
    (FlakyEngine.State (Engine ∅ ∅) [no_faults; write_failing; no_faults] 0)
  = (Throw (EngineError "Write failed"),
     FlakyEngine.State (Engine {[key_test := item_test]} ∅) [no_faults] 2) /\
  LevelDBStorageAdapter.get_on FlakyEngine.get FlakyEngine.read key_test
    (FlakyEngine.State engine_test [get_failing; no_faults] 0)
  = (Throw (EngineError "Not found"), FlakyEngine.State engine_test [no_faults] 1) /\
  LevelDBStorageAdapter._put 4 put_failing key_test
    (LevelDBStorageAdapter.Item item_test (Some hello)) engine_test
  = (Throw (EngineError "Failed"), engine_test) /\
  LevelDBStorageAdapter._get get_failing key_test engine_test
  = (Throw (EngineError "Not found"), engine_test).
Proof.
  split; [|split; [|split; [|split]]].
  - apply (proj1 (adapter_surfaces_engine_error
             FlakyEngine.put FlakyEngine.get (FlakyEngine.write 4) FlakyEngine.read key_test
             (LevelDBStorageAdapter.Item item_test (Some hello))
             (FlakyEngine.State (Engine ∅ ∅) [put_failing; no_faults] 0)
             (FlakyEngine.State (Engine ∅ ∅) [no_faults] 1)
             (EngineError "Failed"))).
    reflexivity.
  - apply (proj1 (proj2 (adapter_surfaces_engine_error
             FlakyEngine.put FlakyEngine.get (FlakyEngine.write 4) FlakyEngine.read key_test
             (LevelDBStorageAdapter.Item item_test (Some hello))
             (FlakyEngine.State (Engine ∅ ∅) [no_faults; write_failing; no_faults] 0)
             (FlakyEngine.State (Engine {[key_test := item_test]} ∅) [no_faults] 2)
             (EngineError "Write failed")))
             (FlakyEngine.State (Engine {[key_test := item_test]} ∅)
                [write_failing; no_faults] 1) hello).
    + vm_compute. reflexivity.
    + reflexivity.
    + vm_compute. reflexivity.
  - apply (proj2 (proj2 (adapter_surfaces_engine_error
             FlakyEngine.put FlakyEngine.get (FlakyEngine.write 4) FlakyEngine.read key_test
             (LevelDBStorageAdapter.Item item_test None)
             (FlakyEngine.State engine_test [get_failing; no_faults] 0)
             (FlakyEngine.State engine_test [no_faults] 1)
             (EngineError "Not found")))).
    reflexivity.
  - apply (proj1 (adapter_surfaces_engine_error
             (db_put put_failing) (db_get put_failing) (write_bytes 4 put_failing)
             LevelDBStorageAdapter.shard_stream key_test
             (LevelDBStorageAdapter.Item item_test (Some hello))
             engine_test engine_test (EngineError "Failed"))).
    reflexivity.
  - apply (proj2 (proj2 (adapter_surfaces_engine_error
             (db_put get_failing) (db_get get_failing) (write_bytes 4 get_failing)
             LevelDBStorageAdapter.shard_stream key_test
             (LevelDBStorageAdapter.Item item_test None)
             engine_test engine_test (EngineError "Not found")))).
    reflexivity.
Defined.

(** A [put] that made the failed metadata write again would be told apart:
    on the engine whose first write fails and whose second one does not, it
    succeeds after two calls, where the adapter has failed after one. *)
Example put_again_is_told_apart :
  LevelDBStorageAdapter.put_on (FlakyEngine.put_again FlakyEngine.put) (FlakyEngine.write 4)
    key_test (LevelDBStorageAdapter.Item item_test None)
    (FlakyEngine.State (Engine ∅ ∅) [put_failing; no_faults] 0)
  = (Return tt, FlakyEngine.State (Engine {[key_test := item_test]} ∅) [] 2) /\
  LevelDBStorageAdapter.put_on FlakyEngine.put (FlakyEngine.write 4)
    key_test (LevelDBStorageAdapter.Item item_test None)
    (FlakyEngine.State (Engine ∅ ∅) [put_failing; no_faults] 0)
  = (Throw (EngineError "Failed"), FlakyEngine.State (Engine ∅ ∅) [no_faults] 1).
Proof. split; vm_compute; reflexivity. Qed.

(* ===================================================================== *)
(** ** The proof engine: further properties *)
(* ===================================================================== *)

Section BranchFacts.
Import Merkle Verifier.

Lemma indexOf_first (arr : list string) (x : string) (i : nat) :
  arr !! i = Some x -> (forall j, j < i -> arr !! j <> Some x) ->
  indexOf arr x = Some i.
Proof.
  revert i. induction arr as [|y r IH]; intros i Hi Hfirst; [discriminate|].
  cbn [indexOf]. destruct (String.eqb_spec y x) as [->|Hne].
  - destruct i as [|i]; [reflexivity|].
    exfalso. apply (Hfirst 0); [lia | reflexivity].
  - destruct i as [|i]; [simpl in Hi; congruence|].
    rewrite (IH i); [reflexivity | exact Hi |].
    intros j Hj. apply (Hfirst (S j)). lia.
Qed.

Lemma length_levels_to_1 (ls : list string) :
  length (levels_to_1 (Proof_of ls)) = treeDepth (_tree (Proof_of ls)).
Proof.
  unfold levels_to_1. rewrite length_map, length_reverse, length_drop, rows_Proof_of.
  lia.
Qed.

Lemma leaves_fit_depth (ls : list string) :
  length (leaves (_tree (Proof_of ls))) <= 2 ^ treeDepth (_tree (Proof_of ls)).
Proof. unfold Proof_of, sync. cbn [_tree leaves treeDepth]. apply computeDepth_bound. Qed.

Lemma locate_first (elems : list value) (sib : value) :
  (forall es, sib <> VArr es) ->
  locate (VArr [VArr elems; sib])
  = match locate (VArr elems) with
    | Some (i, d, resp) => Some (i, S d, resp)
    | None => None
    end.
Proof. intros H. destruct sib; try reflexivity. exfalso. eapply H. reflexivity. Qed.

Lemma locate_second (elems : list value) (sib : value) :
  (forall es, sib <> VArr es) ->
  locate (VArr [sib; VArr elems])
  = match locate (VArr elems) with
    | Some (i, d, resp) => Some (i + 2 ^ d, S d, resp)
    | None => None
    end.
Proof. intros H. destruct sib; try reflexivity. exfalso. eapply H. reflexivity. Qed.

Lemma elem_not_array (level : list string) (k : nat) (es : list value) :
  elem level k <> VArr es.
Proof. unfold elem. destruct (level !! k); discriminate. Qed.

Lemma mod_pow2_succ (a n : nat) :
  a mod 2 ^ S n = a mod 2 + 2 * ((a / 2) mod 2 ^ n).
Proof. rewrite Nat.pow_succ_r'. apply Nat.Div0.mod_mul_r. Qed.

(** The walk spells the low bits of the index it starts from, one per
    level. *)
Lemma locate_walk (levels : list (list string)) :
  forall (branch : value) (index lo k : nat) (resp : string),
    is_array branch -> locate branch = Some (lo, k, resp) ->
    locate (walk levels branch index)
    = Some (lo + 2 ^ k * (index mod 2 ^ length levels), k + length levels, resp).
Proof.
  induction levels as [|lv rest IH]; intros br idx lo k resp Harr Hloc.
  - cbn [length]. rewrite Nat.pow_0_r, Nat.mod_1_r, Nat.mul_0_r, !Nat.add_0_r. exact Hloc.
  - rewrite walk_cons. cbn [length]. rewrite mod_pow2_succ.
    destruct Harr as [es ->].
    cbn [walk_step fst snd]. destruct (Nat.even idx) eqn:Ev.
    + rewrite (IH _ _ lo (S k) resp).
      * pose proof (even_pair idx Ev) as He.
        assert (Hm : idx mod 2 = 0) by (rewrite He, Nat.mul_comm; apply Nat.Div0.mod_mul).
        rewrite Hm, <- Nat.div2_div, Nat.pow_succ_r'. do 3 f_equal; lia.
      * eexists. reflexivity.
      * rewrite locate_first by apply elem_not_array. rewrite Hloc. reflexivity.
    + rewrite (IH _ _ (lo + 2 ^ k) (S k) resp).
      * pose proof (odd_pair idx Ev) as Ho.
        assert (Hm : idx mod 2 = 1).
        { rewrite Ho, Nat.add_comm, Nat.mul_comm, Nat.Div0.mod_add. reflexivity. }
        rewrite Hm, <- Nat.div2_div, Nat.pow_succ_r'. do 3 f_equal; lia.
      * eexists. reflexivity.
      * rewrite locate_second by apply elem_not_array. rewrite Hloc. reflexivity.
Qed.
End BranchFacts.

(** X1: on an instance the constructor built, [prove] always returns
    normally, and what it returns is the empty array exactly when the
    upper-cased leaf hash of the challenge and the shard is not in the
    deepest level of the tree. *)
Theorem prove_empty_iff_absent (ls : list string) (challenge : string) (shard : Buffer) :
  (exists v, prove challenge shard (Proof_of ls) = (Return v, Proof_of ls)) /\
  (fst (prove challenge shard (Proof_of ls)) = Return (VArr [])
   <-> toUpperCase (leaf_of challenge shard) ∉ bottom (Proof_of ls)).
Proof.
  rewrite prove_Proof_of, bottom_eq. split; [eexists; reflexivity|].
  cbn [fst]. destruct (indexOf _ _) as [i|] eqn:Hi.
  - split.
    + intros [= H]. exfalso. revert H. apply walk_nonempty. discriminate.
    + intros Hno. exfalso. apply Hno.
      eapply list_elem_of_lookup_2, indexOf_Some, Hi.
  - split; [|reflexivity]. intros _. apply indexOf_None, Hi.
Qed.

(** X2: the branch spells the position of the leaf.  When the leaf hash
    first occurs at index [i] of the deepest level, the branch nests as many
    arrays as the tree has levels above the root around [[resp]], and the
    sides the nested arrays sit on are the binary digits of [i]; with
    duplicate leaves the position is that of the first one. *)
Theorem prove_locates_first_leaf (ls : list string) (challenge : string) (shard : Buffer)
    (i : nat) :
  bottom (Proof_of ls) !! i = Some (toUpperCase (leaf_of challenge shard)) ->
  (forall j, j < i ->
     bottom (Proof_of ls) !! j <> Some (toUpperCase (leaf_of challenge shard))) ->
  exists branch,
    prove challenge shard (Proof_of ls) = (Return branch, Proof_of ls) /\
    Verifier.locate branch
    = Some (i, Merkle.treeDepth (_tree (Proof_of ls)),
            sha256 (challenge ++ toString_hex shard)) /\
    length ls <= 2 ^ Merkle.treeDepth (_tree (Proof_of ls)).
Proof.
  intros Hi Hfirst. rewrite bottom_eq in Hi, Hfirst.
  rewrite prove_Proof_of, (indexOf_first _ _ i Hi Hfirst).
  eexists. split; [reflexivity|]. split.
  - rewrite (locate_walk _ _ _ 0 0 (response challenge shard));
      [| eexists; reflexivity | reflexivity].
    rewrite length_levels_to_1. cbn [Nat.pow]. rewrite Nat.mul_1_l, !Nat.add_0_l.
    rewrite Nat.mod_small; [reflexivity|].
    apply lookup_lt_Some in Hi. pose proof (leaves_fit_depth ls). lia.
  - unfold Proof_of, Merkle.sync. cbn [_tree Merkle.treeDepth].
    rewrite !length_map. apply computeDepth_bound.
Qed.

Lemma prove_locates_first_leaf_witness :
  exists branch,
    prove "b" shard_test (Proof_of (leaves_of ["a"; "b"; "c"; "b"]))
    = (Return branch, Proof_of (leaves_of ["a"; "b"; "c"; "b"])) /\
    Verifier.locate branch
    = Some (1, Merkle.treeDepth (_tree (Proof_of (leaves_of ["a"; "b"; "c"; "b"]))),
            sha256 ("b" ++ toString_hex shard_test)) /\
    length (leaves_of ["a"; "b"; "c"; "b"])
    <= 2 ^ Merkle.treeDepth (_tree (Proof_of (leaves_of ["a"; "b"; "c"; "b"]))).
Proof.
  apply (prove_locates_first_leaf (leaves_of ["a"; "b"; "c"; "b"]) "b" shard_test 1).
  - vm_compute. reflexivity.
  - intros j Hj. assert (j = 0) as -> by lia. vm_compute. discriminate.
Defined.

Section DigestShape.
Import Merkle Verifier.

Lemma lower_upper_hex_ascii (c : ascii) :
  is_hex_lower c = true -> lower_ascii (upper_ascii c) = c.
Proof. destruct c as [[] [] [] [] [] [] [] []]; intros H; try reflexivity; discriminate H. Qed.

Lemma lower_upper_hex (s : string) :
  all_chars is_hex_lower s = true -> toLowerCase (toUpperCase s) = s.
Proof.
  induction s as [|c s IH]; simpl; [reflexivity|].
  intros [Hc Hs]%andb_prop. rewrite (lower_upper_hex_ascii c Hc), (IH Hs). reflexivity.
Qed.

Lemma upper_digest_node (s : string) : hashResultRegexp s = true -> digest_node (toUpperCase s).
Proof.
  intros H. unfold digest_node. rewrite lower_upper_hex; [exact H|].
  unfold hashResultRegexp in H. apply andb_prop in H. apply H.
Qed.

Lemma feed_digest_node (data : string) : digest_node (feed data).
Proof.
  unfold feed. destruct (hashResultRegexp data) eqn:E; apply upper_digest_node.
  - exact E.
  - apply sha256_is_hash.
Qed.

Lemma getNodes_digest_node (l : list string) :
  Forall digest_node l -> Forall digest_node (getNodes l).
Proof.
  induction l as [|a|a b r IH] using pairs_ind; intros H; simpl; auto.
  inversion H as [|? ? _ H']; subst. inversion H' as [|? ? _ H'']; subst.
  constructor; [apply upper_digest_node, sha256_is_hash | auto].
Qed.

Lemma rows_above_digest_node (d : nat) (l : list string) :
  Forall digest_node l -> Forall (Forall digest_node) (rows_above d l).
Proof.
  revert l. induction d as [|d IH]; intros l H; cbn [rows_above].
  - constructor; [exact H | constructor].
  - constructor; [exact H|]. apply IH, getNodes_digest_node, H.
Qed.

Lemma elem_strings (level : list string) (k : nat) (P : string -> Prop) :
  Forall P level -> Forall P (strings_of (elem level k)).
Proof.
  intros H. unfold elem. destruct (level !! k) as [s|] eqn:E; cbn [strings_of].
  - constructor; [|constructor]. eapply Forall_lookup_1; eassumption.
  - constructor.
Qed.

Lemma walk_strings (P : string -> Prop) (levels : list (list string)) :
  Forall (Forall P) levels ->
  forall branch index,
    Forall P (strings_of branch) -> Forall P (strings_of (walk levels branch index)).
Proof.
  induction 1 as [|lv rest Hlv Hrest IH]; intros br idx Hbr; [exact Hbr|].
  rewrite walk_cons. apply IH. cbn [walk_step fst].
  destruct (Nat.even idx); cbn [strings_of flat_map]; rewrite app_nil_r;
    apply Forall_app; split; auto using elem_strings.
Qed.

Lemma levels_to_1_digests (ls : list string) :
  Forall (Forall (fun s => hashResultRegexp s = true)) (levels_to_1 (Proof_of ls)).
Proof.
  rewrite levels_to_1_Proof_of.
  assert (H : Forall (Forall digest_node)
                (rows_above (treeDepth (_tree (Proof_of ls))) (leaves (_tree (Proof_of ls))))).
  { apply rows_above_digest_node. unfold Proof_of, sync. cbn [_tree leaves].
    apply Forall_forall. intros x [y [<- _]]%list_elem_of_In%in_map_iff.
    apply feed_digest_node. }
  apply Forall_forall. intros lv [row [<- Hrow]]%list_elem_of_In%in_map_iff.
  apply Forall_forall. intros s [x [<- Hx]]%list_elem_of_In%in_map_iff.
  apply list_elem_of_In, (subseteq_take _ _ row) in Hrow.
  rewrite Forall_forall in H. specialize (H row Hrow).
  rewrite Forall_forall in H. apply H, list_elem_of_In, Hx.
Qed.

Lemma depth_loop_ge (fuel pow n : nat) : pow <= depth_loop fuel pow n.
Proof.
  revert pow. induction fuel as [|fuel IH]; intros pow; cbn [depth_loop]; [lia|].
  destruct (2 ^ pow <? n)%nat; [|lia]. specialize (IH (S pow)). lia.
Qed.

Lemma computeDepth_pos (n : nat) : 2 <= n -> 1 <= computeDepth n.
Proof.
  intros Hn. unfold computeDepth. destruct n as [|n]; [lia|]. cbn [depth_loop].
  destruct (Nat.ltb_spec (2 ^ 0) (S n)) as [_|H]; [|simpl in H; lia].
  apply depth_loop_ge.
Qed.
End DigestShape.

(** X3: every string of a branch that [prove] returns, the response and
    each sibling, is a digest as it is written in lower case: sixty-four
    hexadecimal digits, none of them an upper-case letter. *)
Theorem prove_branch_of_digests (ls : list string) (challenge : string) (shard : Buffer) :
  exists branch,
    prove challenge shard (Proof_of ls) = (Return branch, Proof_of ls) /\
    Forall (fun s => String.length s = 64 /\ all_chars is_hex_lower s = true)
           (Verifier.strings_of branch).
Proof.
  rewrite prove_Proof_of. eexists. split; [reflexivity|].
  assert (Hshape : forall s, Merkle.hashResultRegexp s = true ->
                             String.length s = 64 /\ all_chars is_hex_lower s = true).
  { intros s [H1 H2]%andb_prop. split; [apply Nat.eqb_eq, H1 | exact H2]. }
  eapply Forall_impl; [|exact Hshape].
  destruct (indexOf _ _) as [i|]; [|constructor].
  apply walk_strings; [apply levels_to_1_digests|].
  cbn [Verifier.strings_of flat_map]. constructor; [apply sha256_is_hash | constructor].
Qed.

(** X4: a leaf that is the last of its level and has an even index there
    has no sibling: for the last leaf of an odd number of leaves, three or
    more, the branch holds [undefined] where the sibling of the leaf is
    expected. *)
Theorem prove_unpaired_leaf (ls : list string) (challenge : string) (shard : Buffer) :
  Nat.odd (length ls) = true ->
  1 < length ls ->
  indexOf (bottom (Proof_of ls)) (toUpperCase (leaf_of challenge shard))
  = Some (length ls - 1) ->
  exists branch,
    prove challenge shard (Proof_of ls) = (Return branch, Proof_of ls) /\
    has_undef branch = true.
Proof.
  intros Hodd Hlen Hi. rewrite bottom_eq in Hi. rewrite prove_Proof_of, Hi.
  eexists. split; [reflexivity|].
  rewrite levels_to_1_Proof_of.
  set (lv := Merkle.leaves (_tree (Proof_of ls))).
  assert (Hlv : length lv = length ls)
    by (subst lv; unfold Proof_of, Merkle.sync; cbn [_tree Merkle.leaves];
        rewrite !length_map; reflexivity).
  assert (Hd : 1 <= Merkle.treeDepth (_tree (Proof_of ls))).
  { unfold Proof_of, Merkle.sync. cbn [_tree Merkle.treeDepth].
    rewrite !length_map. apply computeDepth_pos. lia. }
  destruct (Merkle.treeDepth (_tree (Proof_of ls))) as [|d]; [lia|].
  cbn [Merkle.rows_above take map]. rewrite walk_cons.
  apply walk_keeps_undef. cbn [walk_step fst].
  assert (Hev : Nat.even (length ls - 1) = true).
  { replace (length ls) with (S (length ls - 1)) in Hodd by lia.
    rewrite Nat.odd_succ in Hodd. exact Hodd. }
  rewrite Hev, elem_map_lower.
  rewrite (lookup_ge_None_2 lv) by lia.
  cbn [has_undef existsb]. apply orb_true_r.
Qed.

Lemma prove_unpaired_leaf_witness :
  exists branch,
    prove "c" shard_test (Proof_of (leaves_of ["a"; "b"; "c"]))
    = (Return branch, Proof_of (leaves_of ["a"; "b"; "c"])) /\
    has_undef branch = true.
Proof.
  apply (prove_unpaired_leaf (leaves_of ["a"; "b"; "c"]) "c" shard_test).
  - reflexivity.
  - simpl. lia.
  - vm_compute. reflexivity.
Defined.

Section ConstructorFacts.

Lemma lower_upper_ascii (c : ascii) : lower_ascii (upper_ascii c) = lower_ascii c.
Proof. destruct c as [[] [] [] [] [] [] [] []]; reflexivity. Qed.

Lemma lower_upper (s : string) : toLowerCase (toUpperCase s) = toLowerCase s.
Proof.
  induction s as [|c s IH]; simpl; [reflexivity|].
  rewrite lower_upper_ascii, IH. reflexivity.
Qed.

Lemma upper_lower_ascii (c : ascii) : upper_ascii (lower_ascii c) = upper_ascii c.
Proof. destruct c as [[] [] [] [] [] [] [] []]; reflexivity. Qed.

Lemma upper_lower (s : string) : toUpperCase (toLowerCase s) = toUpperCase s.
Proof.
  induction s as [|c s IH]; simpl; [reflexivity|].
  rewrite upper_lower_ascii, IH. reflexivity.
Qed.

Lemma same_upper_same_lower (a b : string) :
  toUpperCase a = toUpperCase b -> toLowerCase a = toLowerCase b.
Proof. intros H. rewrite <- (lower_upper a), <- (lower_upper b), H. reflexivity. Qed.

Lemma lower_all_type_error (ls : list string) (v : value) (rest : list value) :
  lacks_toLowerCase v = true ->
  lower_all (map VStr ls ++ v :: rest) = Throw TypeError.
Proof.
  intros Hv. induction ls as [|s r IH].
  - destruct v; [reflexivity.. | discriminate Hv | reflexivity].
  - cbn [map app lower_all]. rewrite IH. reflexivity.
Qed.

Lemma hex_byte (b : byte) :
  Byte.of_N (Z.to_N (16 * hexval (hexdigit (Z.shiftr (byte_val b) 4))
                     + hexval (hexdigit (byte_val b)))) = Some b.
Proof. destruct b; vm_compute; reflexivity. Qed.

Lemma toString_hex_app (b1 b2 : Buffer) :
  toString_hex (b1 ++ b2) = toString_hex b1 ++ toString_hex b2.
Proof.
  induction b1 as [|b r IH]; [reflexivity|].
  cbn [toString_hex app String.append]. rewrite IH. reflexivity.
Qed.

Lemma toString_hex_inj (b1 b2 : Buffer) :
  toString_hex b1 = toString_hex b2 -> b1 = b2.
Proof.
  revert b2. induction b1 as [|a r IH]; intros [|b r'] H; try discriminate; [reflexivity|].
  cbn [toString_hex] in H. injection H as H1 H2 H3.
  f_equal; [|apply IH, H3].
  pose proof (hex_byte a) as Ha. rewrite H1, H2, hex_byte in Ha. congruence.
Qed.

Lemma append_cancel (c x y : string) : c ++ x = c ++ y -> x = y.
Proof. induction c as [|a c IH]; simpl; [auto|]. intros [= H]. auto. Qed.

Lemma append_assoc (a b c : string) : (a ++ b) ++ c = a ++ (b ++ c).
Proof.
  induction a as [|x a IH]; [reflexivity|].
  change (String x ((a ++ b) ++ c) = String x (a ++ (b ++ c))).
  rewrite IH. reflexivity.
Qed.
End ConstructorFacts.

(** X5: the constructor does not tell the case of the leaves it is given:
    two arrays of leaves that agree up to case give the same instance, so
    leaves handed over in upper case are found by [prove] as well. *)
Theorem new_Proof_ignores_case (ls ls' : list string) :
  Forall2 (fun a b => toUpperCase a = toUpperCase b) ls ls' ->
  new_Proof (VArr (map VStr ls)) = new_Proof (VArr (map VStr ls')) /\
  (forall challenge shard,
     toUpperCase (leaf_of challenge shard) ∈ ls ->
     exists branch,
       prove challenge shard (Proof_of ls') = (Return branch, Proof_of ls') /\
       branch <> VArr []).
Proof.
  intros Hcase.
  assert (Hlow : map toLowerCase ls = map toLowerCase ls').
  { induction Hcase as [|a b l l' Hab _ IH]; [reflexivity|].
    cbn [map]. rewrite IH, (same_upper_same_lower a b Hab). reflexivity. }
  assert (Hsame : Proof_of ls = Proof_of ls') by (unfold Proof_of; rewrite Hlow; reflexivity).
  split.
  - rewrite !new_Proof_array, Hsame. reflexivity.
  - intros c b Hin. rewrite <- Hsame. rewrite prove_Proof_of.
    assert (Hstored : toUpperCase (leaf_of c b) ∈ Merkle.leaves (_tree (Proof_of ls))).
    { unfold Proof_of, Merkle.sync. cbn [_tree Merkle.leaves].
      apply list_elem_of_In, in_map_iff. exists (leaf_of c b). split.
      - unfold Merkle.feed, leaf_of. rewrite sha256_is_hash. reflexivity.
      - apply in_map_iff. exists (toUpperCase (leaf_of c b)). split.
        + rewrite lower_upper. apply sha256_lower.
        + apply list_elem_of_In, Hin. }
    destruct (indexOf_elem _ _ Hstored) as [i ->].
    eexists. split; [reflexivity|]. apply walk_nonempty. discriminate.
Qed.

Lemma new_Proof_ignores_case_witness :
  new_Proof (VArr (map VStr (map toUpperCase (leaves_of ["a"; "b"]))))
  = new_Proof (VArr (map VStr (leaves_of ["a"; "b"]))) /\
  (forall challenge shard,
     toUpperCase (leaf_of challenge shard) ∈ map toUpperCase (leaves_of ["a"; "b"]) ->
     exists branch,
       prove challenge shard (Proof_of (leaves_of ["a"; "b"]))
       = (Return branch, Proof_of (leaves_of ["a"; "b"])) /\
       branch <> VArr []).
Proof.
  apply (new_Proof_ignores_case (map toUpperCase (leaves_of ["a"; "b"])) (leaves_of ["a"; "b"])).
  unfold leaves_of. cbn [map].
  constructor; [apply upper_idem|].
  constructor; [apply upper_idem|].
  constructor.
Defined.

(** X6: an array whose elements are strings up to an element that has no
    [toLowerCase] method (undefined, null, a boolean, a number or an array)
    passes the assertion, and makes [leaf.toLowerCase()] throw a
    [TypeError], whatever follows that element: the constructor fails, and
    not with the assertion error of an argument that is not an array. *)
Theorem new_Proof_outcomes (ls : list string) (v : value) (rest : list value) :
  lacks_toLowerCase v = true ->
  isArray (VArr (map VStr ls ++ v :: rest)) = true /\
  new_Proof (VArr (map VStr ls ++ v :: rest)) = Throw TypeError.
Proof.
  intros Hv. split; [reflexivity|].
  unfold new_Proof. rewrite lower_all_type_error by exact Hv. reflexivity.
Qed.

Lemma new_Proof_outcomes_witness :
  new_Proof (VArr [VStr (leaf_of "a" shard_test); VNum 42; VUndef]) = Throw TypeError.
Proof.
  apply (proj2 (new_Proof_outcomes [leaf_of "a" shard_test] (VNum 42) [VUndef] eq_refl)).
Defined.

(** X7: what [prove] digests is the challenge followed by the shard in
    hexadecimal.  For one challenge, two shards give the same string only if
    they are the same shard; but the string does not mark where the
    challenge ends, so that a challenge extended by the hexadecimal of the
    first bytes of a shard gives, with the rest of the shard, the result of
    the challenge with the whole shard, on any instance. *)
Theorem prove_input_derivation (challenge : string) (b1 b2 : Buffer) (p : Proof) :
  (challenge ++ toString_hex b1 = challenge ++ toString_hex b2 -> b1 = b2) /\
  prove (challenge ++ toString_hex b1) b2 p = prove challenge (b1 ++ b2) p.
Proof.
  split.
  - intros H. apply toString_hex_inj, (append_cancel challenge), H.
  - unfold prove. rewrite toString_hex_app, append_assoc. reflexivity.
Qed.

Lemma prove_input_derivation_witness :
  shard_test = shard_test /\
  prove ("a" ++ toString_hex shard_test) shard_test (Proof_of (leaves_of ["a"]))
  = prove "a" (shard_test ++ shard_test) (Proof_of (leaves_of ["a"])).
Proof.
  split.
  - apply (proj1 (prove_input_derivation "a" shard_test shard_test (Proof_of (leaves_of ["a"])))).
    reflexivity.
  - apply (proj2 (prove_input_derivation "a" shard_test shard_test (Proof_of (leaves_of ["a"])))).
Defined.

(* ===================================================================== *)
(** ** The storage adapters: further properties *)
(* ===================================================================== *)

Section AdapterFacts.

Lemma put_entries (chunkSize : nat) (f : faults) (key : string)
    (it : LevelDBStorageAdapter.item) (eng eng' : engine) :
  LevelDBStorageAdapter._put chunkSize f key it eng = (Return tt, eng') ->
  entries eng' = <[key := LevelDBStorageAdapter.record it]> (entries eng).
Proof.
  unfold LevelDBStorageAdapter._put, LevelDBStorageAdapter.put_on, bind, db_put,
    write_bytes, guarded, throw, ret.
  destruct (put_fails f); [discriminate|].
  destruct (LevelDBStorageAdapter.shard it); [destruct (write_fails f); [discriminate|]|];
    intros [= <-]; reflexivity.
Qed.

Lemma del_entries (f : faults) (key : string) (eng eng' : engine) :
  LevelDBStorageAdapter._del f key eng = (Return tt, eng') ->
  entries eng' = delete key (entries eng).
Proof.
  unfold LevelDBStorageAdapter._del, bind, db_del, reset, guarded, throw.
  destruct (del_fails f); [discriminate|]. destruct (reset_fails f); [discriminate|].
  intros [= <-]. reflexivity.
Qed.

Lemma keys_spec (eng : engine) (k : string) :
  k ∈ map fst (map_to_list (entries eng)) <-> is_Some (entries eng !! k).
Proof.
  change (map fst (map_to_list (entries eng))) with (fst <$> map_to_list (entries eng)).
  rewrite list_elem_of_fmap. split.
  - intros [[k' v] [-> Hin]]. apply elem_of_map_to_list in Hin. eauto.
  - intros [v Hv]. exists (k, v). split; [reflexivity|]. apply elem_of_map_to_list, Hv.
Qed.
End AdapterFacts.

(** X9: [keys] of the durable adapter enumerates the keys that have a
    metadata entry, each once.  After a [put] that succeeded the key is among
    them, after a [delete] that succeeded it is not, and neither changes
    whether another key is. *)
Theorem keys_follow_put_and_delete (chunkSize : nat) (f : faults) (key : string)
    (it : LevelDBStorageAdapter.item) (eng : engine) :
  (exists ks, LevelDBStorageAdapter._keys eng = (Return ks, eng) /\
              NoDup ks /\ forall k, k ∈ ks <-> is_Some (entries eng !! k)) /\
  (forall eng',
     LevelDBStorageAdapter._put chunkSize f key it eng = (Return tt, eng') ->
     exists ks ks',
       LevelDBStorageAdapter._keys eng = (Return ks, eng) /\
       LevelDBStorageAdapter._keys eng' = (Return ks', eng') /\
       key ∈ ks' /\ forall k, k <> key -> (k ∈ ks' <-> k ∈ ks)) /\
  (forall eng',
     LevelDBStorageAdapter._del f key eng = (Return tt, eng') ->
     exists ks ks',
       LevelDBStorageAdapter._keys eng = (Return ks, eng) /\
       LevelDBStorageAdapter._keys eng' = (Return ks', eng') /\
       (key ∉ ks') /\ forall k, k <> key -> (k ∈ ks' <-> k ∈ ks)).
Proof.
  unfold LevelDBStorageAdapter._keys. split; [|split].
  - eexists. split; [reflexivity|]. split; [|apply keys_spec].
    apply NoDup_fst_map_to_list.
  - intros eng' Hp. apply put_entries in Hp.
    eexists. eexists. split; [reflexivity|]. split; [reflexivity|].
    split.
    + apply keys_spec. rewrite Hp, lookup_insert_eq. eauto.
    + intros k Hk. rewrite !keys_spec, Hp, lookup_insert_ne by congruence. reflexivity.
  - intros eng' Hd. apply del_entries in Hd.
    eexists. eexists. split; [reflexivity|]. split; [reflexivity|].
    split.
    + rewrite keys_spec, Hd, lookup_delete_eq. intros [v Hv]. discriminate.
    + intros k Hk. rewrite !keys_spec, Hd, lookup_delete_ne by congruence. reflexivity.
Qed.

Lemma keys_follow_put_and_delete_witness :
  (exists ks ks',
     LevelDBStorageAdapter._keys (Engine ∅ ∅) = (Return ks, Engine ∅ ∅) /\
     LevelDBStorageAdapter._keys (Engine {[key_test := item_test]} ∅)
     = (Return ks', Engine {[key_test := item_test]} ∅) /\
     key_test ∈ ks' /\ forall k, k <> key_test -> (k ∈ ks' <-> k ∈ ks)) /\
  (exists ks ks',
     LevelDBStorageAdapter._keys engine_test = (Return ks, engine_test) /\
     LevelDBStorageAdapter._keys (Engine ∅ ∅) = (Return ks', Engine ∅ ∅) /\
     (key_test ∉ ks') /\ forall k, k <> key_test -> (k ∈ ks' <-> k ∈ ks)).
Proof.
  split.
  - apply (proj1 (proj2 (keys_follow_put_and_delete 4 no_faults key_test
             (LevelDBStorageAdapter.Item item_test None) (Engine ∅ ∅)))).
    vm_compute. reflexivity.
  - apply (proj2 (proj2 (keys_follow_put_and_delete 4 no_faults key_test
             (LevelDBStorageAdapter.Item item_test None) engine_test))).
    vm_compute. reflexivity.
Defined.

Lemma ram_write_then_get_witness :
  exists st s',
    RAMStorageAdapter._get key_test (RAMStorageAdapter.Store {[key_test := item_test]} ∅)
    = (Return (item_test, st), RAMStorageAdapter.Store {[key_test := item_test]} ∅) /\
    RAMStorageAdapter.write st hello (RAMStorageAdapter.Store {[key_test := item_test]} ∅)
    = (Return true, s') /\
    RAMStorageAdapter._get key_test s' = (Return (item_test, Readable hello), s').
Proof.
  apply (ram_write_then_get key_test item_test hello
           (RAMStorageAdapter.Store {[key_test := item_test]} ∅)).
  - apply lookup_singleton_eq.
  - apply lookup_empty.
Defined.
